(** * The download-and-package pipeline of img_downloader_web_zip_only.py

    A shallow embedding of the Filename Resolver ([sanitize_filename],
    [extract_filename_from_url]), of the task worker ([download_worker]),
    of the progress stream ([event_stream]) and of the submission handler
    ([start]), with the properties the specification states about them.

    Conventions of the embedding.
    - A Python [str] is a [string]; one [ascii] stands for one character
      (code points 0..255).  A [bytes] value is a [list byte].
    - Python integers are [Z] (sizes, percentages) or [nat] (counters,
      list indices).
    - The dictionaries [{"name":..,"status":..,"progress":..}] built by the
      worker are objects shared by reference: they live in a heap (a list,
      addressed by position) and the list [items] holds their addresses. *)

From Stdlib Require Import ZArith Ascii String List Lia Bool.
From stdpp Require Import base list strings gmap pretty.

Local Open Scope Z_scope.

(** ** Python string primitives used by the program *)

Module PyStr.

(** [c in s] for a one-character [c]. *)
Fixpoint contains (c : ascii) (s : string) : bool :=
  match s with
  | EmptyString => false
  | String a r => Ascii.eqb a c || contains c r
  end.

(** [s.split(c, 1)[0]]: the part of [s] before the first [c]. *)
Fixpoint before_first (c : ascii) (s : string) : string :=
  match s with
  | EmptyString => EmptyString
  | String a r => if Ascii.eqb a c then EmptyString else String a (before_first c r)
  end.

(** [s[:n]] *)
Fixpoint take (n : nat) (s : string) : string :=
  match n, s with
  | S k, String a r => String a (take k r)
  | _, _ => EmptyString
  end.

(** [s[n:]] *)
Fixpoint drop (n : nat) (s : string) : string :=
  match n, s with
  | S k, String _ r => drop k r
  | _, _ => s
  end.

(** [re.sub] of a one-character class: every character is replaced by
    the image under [f]. *)
Fixpoint map (f : ascii → ascii) (s : string) : string :=
  match s with
  | EmptyString => EmptyString
  | String a r => String (f a) (map f r)
  end.

Fixpoint all (p : ascii → bool) (s : string) : bool :=
  match s with
  | EmptyString => true
  | String a r => p a && all p r
  end.

(** [s.rfind(c)]: index of the last [c], or -1. *)
Fixpoint rfind_from (i : Z) (last : Z) (c : ascii) (s : string) : Z :=
  match s with
  | EmptyString => last
  | String a r => rfind_from (i + 1) (if Ascii.eqb a c then i else last) c r
  end.
Definition rfind (c : ascii) (s : string) : Z := rfind_from 0 (-1) c s.

(** [s[i:j]] for indices already known to be non-negative. *)
Definition slice (i j : Z) (s : string) : string :=
  take (Z.to_nat (j - i)) (drop (Z.to_nat i) s).

Definition is_empty (s : string) : bool :=
  match s with EmptyString => true | _ => false end.

Definition starts_with (c : ascii) (s : string) : bool :=
  match s with String a _ => Ascii.eqb a c | _ => false end.

Fixpoint ends_with (c : ascii) (s : string) : bool :=
  match s with
  | EmptyString => false
  | String a EmptyString => Ascii.eqb a c
  | String _ r => ends_with c r
  end.

(** The line boundaries of [str.splitlines] among the characters of
    the model: LF, CR, VT, FF, FS, GS, RS and NEL. *)
Definition line_break (c : ascii) : bool :=
  Ascii.eqb c "010" || Ascii.eqb c "013" || Ascii.eqb c "011" || Ascii.eqb c "012"
  || Ascii.eqb c "028" || Ascii.eqb c "029" || Ascii.eqb c "030" || Ascii.eqb c "133".

(** [s.splitlines()], with the line read so far in [line]; CR LF counts
    as one boundary and a trailing boundary opens no new line. *)
Fixpoint splitlines_from (line : string) (s : string) : list string :=
  match s with
  | EmptyString => if is_empty line then [] else [line]
  | String c r =>
      if line_break c then
        line :: splitlines_from EmptyString
                  (if Ascii.eqb c "013"
                   then match r with
                        | String c' r' => if Ascii.eqb c' "010" then r' else r
                        | EmptyString => r
                        end
                   else r)
      else splitlines_from (line +:+ String c EmptyString) r
  end.
Definition splitlines (s : string) : list string := splitlines_from EmptyString s.

(** [c.isspace()] among the characters of the model. *)
Definition is_space (c : ascii) : bool :=
  let n := N_of_ascii c in
  ((9 <=? n) && (n <=? 13) || (28 <=? n) && (n <=? 32)
   || (n =? 133) || (n =? 160))%N.

Fixpoint lstrip (s : string) : string :=
  match s with
  | EmptyString => EmptyString
  | String c r => if is_space c then lstrip r else s
  end.

Fixpoint rstrip (s : string) : string :=
  match s with
  | EmptyString => EmptyString
  | String c r =>
      let r' := rstrip r in
      if is_empty r' && is_space c then EmptyString else String c r'
  end.

(** [s.strip()] *)
Definition strip (s : string) : string := rstrip (lstrip s).

End PyStr.

(** ** [os.path] (posixpath) *)

Module OsPath.

(** [os.path.basename(p)] is [p[p.rfind('/')+1:]]. *)
Definition basename (p : string) : string :=
  PyStr.drop (Z.to_nat (PyStr.rfind "/" p + 1)) p.

(** [os.path.splitext(p)], after [genericpath._splitext]: the
    extension starts at the last dot of the last path component, unless
    that component consists of leading dots only up to that dot. *)
Definition splitext (p : string) : string * string :=
  let sepIndex := PyStr.rfind "/" p in
  let dotIndex := PyStr.rfind "." p in
  if (sepIndex <? dotIndex)
     && negb (PyStr.all (Ascii.eqb ".") (PyStr.slice (sepIndex + 1) dotIndex p))
  then (PyStr.take (Z.to_nat dotIndex) p, PyStr.drop (Z.to_nat dotIndex) p)
  else (p, EmptyString).

(** [os.path.join(a, b)] *)
Definition join (a b : string) : string :=
  if PyStr.starts_with "/" b then b
  else if PyStr.is_empty a || PyStr.ends_with "/" a then a +:+ b
  else a +:+ "/" +:+ b.

End OsPath.

(** ** A reference model of [urllib.parse.urlparse(s).path]

    The program calls the Python standard library to split the URL.  The
    general development takes that function as a parameter; the model
    below follows CPython's [urlsplit] and [urlparse] on URLs whose
    network location is ASCII and carries no bracketed host, and is the
    instance used in the worked examples. *)

Module UrlLib.

Definition is_alpha (c : ascii) : bool :=
  (Ascii.leb "A" c && Ascii.leb c "Z") || (Ascii.leb "a" c && Ascii.leb c "z").

Definition is_digit (c : ascii) : bool := Ascii.leb "0" c && Ascii.leb c "9".

(** [scheme_chars]: letters, digits and [+-.]. *)
Definition scheme_char (c : ascii) : bool :=
  is_alpha c || is_digit c || Ascii.eqb c "+" || Ascii.eqb c "-" || Ascii.eqb c ".".

Definition lower_char (c : ascii) : ascii :=
  if Ascii.leb "A" c && Ascii.leb c "Z"
  then ascii_of_N (N_of_ascii c + 32) else c.

(** [url.lstrip(_WHATWG_C0_CONTROL_OR_SPACE)] *)
Fixpoint lstrip_c0 (s : string) : string :=
  match s with
  | EmptyString => EmptyString
  | String a r => if (N_of_ascii a <=? 32)%N then lstrip_c0 r else s
  end.

(** Removal of tab, carriage return and line feed
    ([_UNSAFE_URL_BYTES_TO_REMOVE]). *)
Fixpoint remove_unsafe (s : string) : string :=
  match s with
  | EmptyString => EmptyString
  | String a r =>
      if Ascii.eqb a "009" || Ascii.eqb a "010" || Ascii.eqb a "013"
      then remove_unsafe r else String a (remove_unsafe r)
  end.

(** [s.find(c)] *)
Fixpoint find (c : ascii) (s : string) : option nat :=
  match s with
  | EmptyString => None
  | String a r => if Ascii.eqb a c then Some O else S <$> find c r
  end.

(** The scheme (lower-cased) and the rest of the URL. *)
Definition split_scheme (url : string) : string * string :=
  match find ":" url, url with
  | Some (S i), String a _ =>
      if is_alpha a && PyStr.all scheme_char (PyStr.take (S i) url)
      then (PyStr.map lower_char (PyStr.take (S i) url), PyStr.drop (S (S i)) url)
      else (EmptyString, url)
  | _, _ => (EmptyString, url)
  end.

(** [_splitnetloc(url, 2)]: the network location runs up to the first of
    [/], [?], [#]. *)
Fixpoint until_delim (s : string) : string :=
  match s with
  | EmptyString => EmptyString
  | String a r =>
      if Ascii.eqb a "/" || Ascii.eqb a "?" || Ascii.eqb a "#"
      then EmptyString else String a (until_delim r)
  end.

Definition uses_params : list string :=
  [""; "ftp"; "hdl"; "prospero"; "http"; "imap"; "https"; "shttp"; "rtsp";
   "rtspu"; "sip"; "sips"; "mms"; "sftp"; "tel"]%list.

(** [_splitparams(url)[0]]: cut at the first [;] of the last segment. *)
Definition strip_params (url : string) : string :=
  let from := Z.to_nat (PyStr.rfind "/" url + 1) in
  PyStr.take from url +:+ PyStr.before_first ";" (PyStr.drop from url).

Definition urlparse_path (url : string) : option string :=
  let url := remove_unsafe (lstrip_c0 url) in
  let '(scheme, url) := split_scheme url in
  let '(netloc, url) :=
    match url with
    | String "/" (String "/" r) =>
        let netloc := until_delim r in
        (netloc, PyStr.drop (String.length netloc) r)
    | _ => (EmptyString, url)
    end in
  if xorb (PyStr.contains "[" netloc) (PyStr.contains "]" netloc) then None
  else
    let url := PyStr.before_first "#" url in
    let url := PyStr.before_first "?" url in
    Some (if bool_decide (scheme ∈ uses_params) && PyStr.contains ";" url
          then strip_params url else url).

End UrlLib.

(** ** Data model *)

(** One entry of [items]: the dictionary
    [{"name": .., "status": .., "progress": ..}]. *)
Record item := Item { name : string; status : string; progress : Z }.

Global Instance item_inhabited : Inhabited item := populate (Item "" "" 0).

(** What is put on the queue: [{"items": items.copy(), "done": d}].  The
    copy is a new list holding the same dictionary objects, i.e. the same
    heap addresses. *)
Record snapshot := Snapshot { snap_items : list nat; done : bool }.

Abbreviation bytes := (list Byte.byte).

(** The archive being built: the members written by [zf.writestr]. *)
Abbreviation archive := (list (string * bytes)).

(** Everything the worker reads or writes: the heap of item dictionaries,
    the list [items], the queue [q] (oldest first), the archive [zf] and
    the files on disk. *)
Record world := World {
  heap : list item;
  items : list nat;
  queue : list snapshot;
  zf : archive;
  files : gmap string archive
}.

(** The atomic effects of the worker, in the order of the statements that
    cause them. *)
Inductive action :=
| ANew (it : item)                   (* item = {...}; items.append(item) *)
| ASetStatus (r : nat) (s : string)  (* item["status"] = s *)
| ASetProgress (r : nat) (p : Z)     (* item["progress"] = p *)
| APut (d : bool)                    (* q.put({"items": items.copy(), "done": d}) *)
| AWriteStr (n : string) (b : bytes) (* zf.writestr(n, b) *)
| ASave (path : string).             (* with open(path, "wb") as f: f.write(..) *)

(** *** The network, as seen by one [requests.get] *)

(** The value of [int(r.headers.get("content-length") or 0)]. *)
Inductive content_length :=
| CLMissing                 (* header absent or empty: 0 *)
| CLInt (n : Z)             (* the header parses to n *)
| CLInvalid (msg : string). (* int() raises ValueError(msg) *)

Record response := Response {
  http_error : option string;      (* r.raise_for_status() raises *)
  header_length : content_length;
  chunks_read : list bytes;        (* what r.iter_content yields *)
  stream_error : option string     (* raised by iter_content afterwards *)
}.

Inductive get_result :=
| GetRaises (msg : string)         (* timeout, connection error, ... *)
| GetReturns (r : response).

(** The state of a worker run: the world it has produced and the effects
    performed so far. *)
Record wstate := WState { cur : world; trace : list action }.

(** *** Server side *)

(** The registry [progress_queues], the threads started and the number of
    [uuid.uuid4()] calls made so far. *)
Record server := Server {
  progress_queues : gmap string (list snapshot);
  threads : list (list string * string);
  uuid_calls : nat
}.

Inductive http_reply :=
| Reply400 (error : string)        (* jsonify({"error": ..}), 400 *)
| Reply200 (task_id : string).     (* jsonify({"task_id": ..}) *)

(** One task seen by its worker thread and one observer: the shared
    world, the effects the worker has still to perform, the snapshots the
    observer has taken from the queue, the events it has yielded, and
    whether its loop is still running. *)
Record sys := Sys {
  shared : world;
  pending : list action;
  delivered : list snapshot;
  events : list (list item * bool);
  listening : bool
}.

(** ** Filename Resolver (source lines 66-96) *)

(** The character class [[A-Za-z0-9._\-]] of [_filename_sanitize_re]. *)
Definition safe_char (c : ascii) : bool :=
  (Ascii.leb "A" c && Ascii.leb c "Z")
  || (Ascii.leb "a" c && Ascii.leb c "z")
  || (Ascii.leb "0" c && Ascii.leb c "9")
  || Ascii.eqb c "." || Ascii.eqb c "_" || Ascii.eqb c "-".

(** One step of [_filename_sanitize_re.sub("_", name)]. *)
Definition sanitize_char (c : ascii) : ascii :=
  if safe_char c then c else "_"%char.

Definition sanitize_filename_len (name : string) (max_len : nat) : string :=
  let name := if PyStr.is_empty name then "file" else name in
  let name := PyStr.map sanitize_char name in
  if (max_len <? String.length name)%nat then PyStr.take max_len name else name.

(** [sanitize_filename(name)] with the default [max_len = 200]. *)
Definition sanitize_filename (name : string) : string :=
  sanitize_filename_len name 200.

(** ** Effects on the world *)

Definition set_status (s : string) (it : item) : item :=
  Item (name it) s (progress it).

Definition set_progress (p : Z) (it : item) : item :=
  Item (name it) (status it) p.

Definition run_action (a : action) (w : world) : world :=
  match a with
  | ANew it =>
      World (heap w ++ [it]) (items w ++ [length (heap w)]) (queue w) (zf w) (files w)
  | ASetStatus r s =>
      World (alter (set_status s) r (heap w)) (items w) (queue w) (zf w) (files w)
  | ASetProgress r p =>
      World (alter (set_progress p) r (heap w)) (items w) (queue w) (zf w) (files w)
  | APut d =>
      World (heap w) (items w) (queue w ++ [Snapshot (items w) d]) (zf w) (files w)
  | AWriteStr n b =>
      World (heap w) (items w) (queue w) (zf w ++ [(n, b)]) (files w)
  | ASave path =>
      World (heap w) (items w) (queue w) (zf w) (<[path := zf w]> (files w))
  end.

Definition replay (t : list action) (w : world) : world :=
  foldl (λ w a, run_action a w) w t.

(** The worker performs an effect: the world changes and the effect is
    recorded. *)
Definition emit (a : action) (st : wstate) : wstate :=
  WState (run_action a (cur st)) (trace st ++ [a]).

(** What a reader of the snapshot [s] sees when it follows the item
    references in the world [w] (e.g. [json.dumps(data)]). *)
Definition view (w : world) (s : snapshot) : list item * bool :=
  ((λ r, heap w !!! r) <$> snap_items s, done s).

(** The value of every snapshot at the instant it is put on the queue,
    in emission order. *)
Fixpoint emitted (t : list action) (w : world) : list (list item * bool) :=
  match t with
  | [] => []
  | a :: t' =>
      match a with
      | APut d => [view w (Snapshot (items w) d)]
      | _ => []
      end ++ emitted t' (run_action a w)
  end.

(** The snapshots put on the queue, as objects, in emission order. *)
Fixpoint puts (t : list action) (w : world) : list snapshot :=
  match t with
  | [] => []
  | a :: t' =>
      match a with
      | APut d => [Snapshot (items w) d]
      | _ => []
      end ++ puts t' (run_action a w)
  end.

Definition new_world (fs : gmap string archive) : world := World [] [] [] [] fs.

(** A worker state after the further effects [t]. *)
Definition extend (st : wstate) (t : list action) : wstate :=
  WState (replay t (cur st)) (trace st ++ t).

Definition set_queue (q : list snapshot) (w : world) : world :=
  World (heap w) (items w) q (zf w) (files w).

(** ** The progress stream (source lines 252-264)

    One iteration of the [while True] loop of [event_stream]: the world
    after [q.get], the snapshot taken with the event yielded for it (the
    items are read when the event is serialised), and whether the loop
    goes on.  An empty queue is the [queue.Empty] branch. *)
Definition event_stream (w : world)
  : world * option (snapshot * (list item * bool)) * bool :=
  match queue w with
  | [] => (w, None, true)
  | data :: q' => (set_queue q' w, Some (data, view w data), negb (done data))
  end.

(** The two threads that touch a task's queue. *)
Inductive thread := Worker | Observer.

(** The worker thread and the observer run interleaved: a schedule says
    which of the two moves next.  The worker performs its next effect (or
    has returned); the observer, while its loop runs, makes one
    iteration. *)
Definition sys_step (who : thread) (s : sys) : sys :=
  match who with
  | Worker =>
      match pending s with
      | [] => s
      | a :: t => Sys (run_action a (shared s)) t (delivered s) (events s) (listening s)
      end
  | Observer =>
      if listening s then
        let '(w', o, l') := event_stream (shared s) in
        Sys w' (pending s)
            (delivered s ++ match o with Some (data, _) => [data] | None => [] end)
            (events s ++ match o with Some (_, e) => [e] | None => [] end)
            l'
      else s
  end.

Definition sys_run (sched : list thread) (s : sys) : sys :=
  foldl (λ s who, sys_step who s) s sched.

Definition sys_init (fs : gmap string archive) (t : list action) : sys :=
  Sys (new_world fs) t [] [] true.

(** What holds of a task at every moment, under any schedule, when the
    effects of its worker are [T] from the world [w0]: the worker has
    performed an initial part of [T]; the snapshots put so far are those
    delivered followed by those waiting in the queue; the observer has
    yielded one event per snapshot delivered, and each event shows the
    snapshot as the items were at some moment after it was put; the
    observer's loop has stopped only after a terminal snapshot. *)
Definition sys_inv (T : list action) (w0 : world) (s : sys) : Prop :=
  ∃ performed,
    T = performed ++ pending s
    ∧ heap (shared s) = heap (replay performed w0)
    ∧ items (shared s) = items (replay performed w0)
    ∧ delivered s ++ queue (shared s) = puts performed w0
    ∧ length (events s) = length (delivered s)
    ∧ (listening s = false → ∃ x, last (delivered s) = Some x ∧ done x = true)
    ∧ ∀ k e,
        events s !! k = Some e →
        ∃ x t1 t2,
          delivered s !! k = Some x ∧ performed = t1 ++ t2
          ∧ (k < length (puts t1 w0))%nat ∧ e = view (replay t1 w0) x.

(** The reading of "snapshot" as an immutable value: every event an
    observer yields shows the snapshot as it was when it was put. *)
Definition delivered_as_emitted (T : list action) (fs : gmap string archive) : Prop :=
  ∀ sched k e,
    events (sys_run sched (sys_init fs T)) !! k = Some e →
    emitted T (new_world fs) !! k = Some e.

(** The list [items] with its references followed. *)
Definition item_list (w : world) : list item := (λ r, heap w !!! r) <$> items w.

(** [total = int(r.headers.get("content-length") or 0)] *)
Definition total_of (h : content_length) : Z + string :=
  match h with
  | CLMissing => inl 0
  | CLInt n => inl n
  | CLInvalid msg => inr msg
  end.

(** The message of the exception that ends the [try] block of a fetch,
    if one is raised: by [requests.get], by [raise_for_status], by
    [int()] on the header, or while the body is read. *)
Definition failure_of (res : get_result) : option string :=
  match res with
  | GetRaises msg => Some msg
  | GetReturns r =>
      match http_error r with
      | Some msg => Some msg
      | None =>
          match total_of (header_length r) with
          | inr msg => Some msg
          | inl _ => stream_error r
          end
      end
  end.

(** The bytes received when no exception is raised. *)
Definition payload_of (res : get_result) : option bytes :=
  match res, failure_of res with
  | GetReturns r, None => Some (concat (chunks_read r))
  | _, _ => None
  end.

(** [bytes_so_far] after each chunk of a list of chunks. *)
Fixpoint bytes_so_far (downloaded : Z) (chunks : list bytes) : list Z :=
  match chunks with
  | [] => []
  | c :: cs =>
      let d := downloaded + Z.of_nat (length c) in
      d :: bytes_so_far d cs
  end.

Definition nonempty (c : bytes) : bool :=
  match c with [] => false | _ => true end.

(** *** Well-behaved progress

    The notions used to say when the progress values shown to observers
    stay in range and never decrease. *)

(** An item a snapshot may show: progress within [0,100], and 100 once
    the status is no longer [下载中]. *)
Definition item_ok (x : item) : Prop :=
  0 ≤ progress x ≤ 100 ∧ (status x ≠ "下载中" → progress x = 100).

(** Every item of [h] is still in [h'], at the same position, with at
    least the same progress. *)
Definition le_heap (h h' : list item) : Prop :=
  ∀ i x, h !! i = Some x → ∃ x', h' !! i = Some x' ∧ progress x ≤ progress x'.

(** The views [E] climb from the items [h0] to the items [h1]. *)
Fixpoint climbs (h0 : list item) (E : list (list item * bool)) (h1 : list item)
  : Prop :=
  match E with
  | [] => le_heap h0 h1
  | v :: E' => le_heap h0 v.1 ∧ Forall item_ok v.1 ∧ climbs v.1 E' h1
  end.

(** The announced length of a response agrees with its body: it is not
    negative and, when positive, at least the number of bytes read. *)
Definition length_consistent (res : get_result) : Prop :=
  match res with
  | GetReturns r =>
      match total_of (header_length r) with
      | inl total =>
          0 ≤ total
          ∧ (0 < total → Z.of_nat (length (concat (chunks_read r))) ≤ total)
      | inr _ => True
      end
  | GetRaises _ => True
  end.

(** ** Worked inputs

    Concrete networks and states used in the examples at the end. *)

Definition demo_uuid4 (n : nat) : string := "task-" +:+ pretty n.

Definition star : Byte.byte := Byte.x2a.

(** The first request succeeds with 100 bytes announced and received,
    every other request cannot connect. *)
Definition net_mixed (i : nat) (url : string) : get_result :=
  match i with
  | 1%nat => GetReturns (Response None (CLInt 100) [replicate 100 star] None)
  | _ => GetRaises "connection refused"
  end.

(** Every request succeeds with a body of four bytes in two chunks. *)
Definition net_ok (i : nat) (url : string) : get_result :=
  GetReturns (Response None (CLInt 4) [[star; star]; [star; star]] None).

(** A compressed response: [Content-Length] counts the 10 bytes sent,
    while [iter_content] yields the 20 bytes they decode to. *)
Definition net_gzip (i : nat) (url : string) : get_result :=
  GetReturns (Response None (CLInt 10) [replicate 20 star] None).

(** The connection breaks after half of the announced body. *)
Definition net_broken (i : nat) (url : string) : get_result :=
  GetReturns (Response None (CLInt 4) [[star; star]] (Some "connection reset")).

(** A response of three bytes read as two chunks around an empty one. *)
Definition three_bytes : response :=
  Response None (CLInt 3) [[star; star]; []; [star]] None.

(** The worker just after [items.append(item)] and the first [q.put] for
    its first URL. *)
Definition first_item_state : wstate :=
  emit (APut false)
    (emit (ANew (Item "a.png" "下载中" 0)) (WState (new_world ∅) [])).

(** ** The pipeline (source lines 77-96 and 177-288) *)

Section Pipeline.

(** [urllib.parse.urlparse(s).path].  The function belongs to the Python
    standard library, not to the program; [None] stands for the
    [ValueError] it raises on a malformed URL. *)
Variable urlparse_path : string → option string.

(** The configured directory of the archives. *)
Variable TMP_DIR : string.

(** The successive results of [str(uuid.uuid4())]. *)
Variable uuid4 : nat → string.

Definition extract_filename_from_url (url : string) : string :=
  let clean := PyStr.before_first "?" url in
  match urlparse_path clean with
  | Some path =>
      let basename := OsPath.basename path in
      let basename := if PyStr.is_empty basename then "file.jpg" else basename in
      let basename :=
        if negb (PyStr.contains "." basename) then basename +:+ ".jpg" else basename in
      sanitize_filename basename
  | None => sanitize_filename "file.jpg"
  end.

(** [any(it["name"] == unique_name for it in items)] *)
Definition name_taken (w : world) (unique_name : string) : bool :=
  existsb (λ r, bool_decide (name (heap w !!! r) = unique_name)) (items w).

(** The [while] loop of lines 192-194.  [fuel] bounds the number of
    iterations; [None] means the bound was reached. *)
Fixpoint unique_name_loop (fuel : nat) (w : world) (base ext unique_name : string)
    (suffix : nat) : option string :=
  if name_taken w unique_name then
    match fuel with
    | O => None
    | S fuel' =>
        unique_name_loop fuel' w base ext
          (base +:+ "_" +:+ pretty suffix +:+ ext) (S suffix)
    end
  else Some unique_name.

(** Both [except] clauses (lines 227-234). *)
Definition fail_item (it : nat) (msg : string) (st : wstate) : wstate :=
  let st := emit (ASetStatus it ("失败: " +:+ msg)) st in
  let st := emit (ASetProgress it 100) st in
  emit (APut false) st.

(** [int(downloaded * 100 / total)] when [total] is not zero, else 100:
    the quotient truncated towards zero.  Python rounds the quotient to
    binary64 before [int] truncates it; the model truncates the exact
    quotient, which gives the same integer as long as
    [downloaded * 100] is below 2^53. *)
Definition percent (downloaded total : Z) : Z :=
  if total =? 0 then 100 else Z.quot (downloaded * 100) total.

(** The body of the loop over [r.iter_content] (lines 207-217), on the
    worker state, [downloaded] and [chunks]. *)
Definition read_chunk (it : nat) (total : Z)
    (acc : wstate * Z * list bytes) (chunk : bytes) : wstate * Z * list bytes :=
  let '(st, downloaded, chunks) := acc in
  match chunk with
  | [] => acc
  | _ =>
      let chunks := chunks ++ [chunk] in
      let downloaded := downloaded + Z.of_nat (length chunk) in
      let st := emit (ASetProgress it (percent downloaded total)) st in
      (emit (APut false) st, downloaded, chunks)
  end.

(** The [try] statement of lines 200-234 for the item at address [it]. *)
Definition fetch (it : nat) (unique_name : string) (res : get_result)
    (st : wstate) : wstate :=
  match res with
  | GetRaises msg => fail_item it msg st
  | GetReturns r =>
      match http_error r with
      | Some msg => fail_item it msg st
      | None =>
          match total_of (header_length r) with
          | inr msg => fail_item it msg st
          | inl total =>
              let '(st, _, chunks) :=
                foldl (read_chunk it total) (st, 0, []) (chunks_read r) in
              match stream_error r with
              | Some msg => fail_item it msg st
              | None =>
                  let content_bytes := concat chunks in
                  let st := emit (AWriteStr unique_name content_bytes) st in
                  let st := emit (ASetStatus it "完成") st in
                  let st := emit (ASetProgress it 100) st in
                  emit (APut false) st
              end
          end
      end
  end.

(** One iteration of the loop over the URLs (lines 187-234). *)
Definition download_one (st : wstate) (url : string) (res : get_result) : option wstate :=
  let filename := extract_filename_from_url url in
  let '(base, ext) := OsPath.splitext filename in
  match unique_name_loop (length (items (cur st))) (cur st) base ext filename 1 with
  | None => None
  | Some unique_name =>
      let it := length (heap (cur st)) in
      let st := emit (ANew (Item unique_name "下载中" 0)) st in
      let st := emit (APut false) st in
      Some (fetch it unique_name res st)
  end.

(** [for i, url in enumerate(urls, start=1)]; [net i url] is what the
    network answers to the [i]-th request. *)
Fixpoint for_urls (net : nat → string → get_result) (i : nat) (urls : list string)
    (st : wstate) : option wstate :=
  match urls with
  | [] => Some st
  | url :: rest =>
      match download_one st url (net i url) with
      | None => None
      | Some st' => for_urls net (S i) rest st'
      end
  end.

(** [download_worker(urls, q, task_id)] started on a fresh queue, with the
    files [fs] on disk.  [write_ok] tells whether writing the archive file
    succeeds; when it does not, the exception ends the thread. *)
Definition download_worker (urls : list string) (net : nat → string → get_result)
    (write_ok : bool) (fs : gmap string archive) (task_id : string) : option wstate :=
  match for_urls net 1 urls (WState (new_world fs) []) with
  | None => None
  | Some st =>
      let zip_path := OsPath.join TMP_DIR (task_id +:+ ".zip") in
      if write_ok then
        let st := emit (ASave zip_path) st in
        Some (emit (APut true) st)
      else Some st
  end.

(** *** The effects of a run, statement by statement

    The lists below spell out the effects of each part of the worker for
    given outcomes of the network; the lemmas [fetch_extend] and
    [download_one_extend] show that the worker performs exactly these. *)

Fixpoint chunk_actions (it : nat) (total downloaded : Z) (chunks : list bytes)
  : list action :=
  match chunks with
  | [] => []
  | c :: cs =>
      if nonempty c then
        let d := downloaded + Z.of_nat (length c) in
        [ASetProgress it (percent d total); APut false] ++ chunk_actions it total d cs
      else chunk_actions it total downloaded cs
  end.

Definition fail_actions (it : nat) (msg : string) : list action :=
  [ASetStatus it ("失败: " +:+ msg); ASetProgress it 100; APut false].

Definition fetch_actions (it : nat) (unique_name : string) (res : get_result)
  : list action :=
  match res with
  | GetRaises msg => fail_actions it msg
  | GetReturns r =>
      match http_error r with
      | Some msg => fail_actions it msg
      | None =>
          match total_of (header_length r) with
          | inr msg => fail_actions it msg
          | inl total =>
              chunk_actions it total 0 (chunks_read r)
              ++ match stream_error r with
                 | Some msg => fail_actions it msg
                 | None =>
                     [AWriteStr unique_name (concat (chunks_read r));
                      ASetStatus it "完成"; ASetProgress it 100; APut false]
                 end
          end
      end
  end.

Definition url_actions (it : nat) (unique_name : string) (res : get_result)
  : list action :=
  [ANew (Item unique_name "下载中" 0); APut false]
  ++ fetch_actions it unique_name res.

(** The status an item ends with. *)
Definition final_status (res : get_result) : string :=
  match failure_of res with
  | Some msg => "失败: " +:+ msg
  | None => "完成"
  end.

(** The archive member a fetch contributes. *)
Definition member_of (unique_name : string) (res : get_result) : archive :=
  match payload_of res with
  | Some b => [(unique_name, b)]
  | None => []
  end.

(** The candidate names of the loop of lines 192-194. *)
Definition suffixed (filename : string) (k : nat) : string :=
  let '(base, ext) := OsPath.splitext filename in
  base +:+ "_" +:+ pretty k +:+ ext.

(** [n] is the name that loop chooses for [filename] when the names
    [used] are taken: [filename] itself if it is free, otherwise the
    first free one among [suffixed filename 1], [suffixed filename 2],
    ... *)
Definition name_choice (used : list string) (filename n : string) : Prop :=
  (n ∉ used)
  ∧ ((n = filename)
     ∨ (filename ∈ used
        ∧ ∃ k, (1 ≤ k)%nat ∧ n = suffixed filename k
               ∧ ∀ j, (1 ≤ j < k)%nat → suffixed filename j ∈ used)).

(** The names chosen one after the other for a list of file names,
    starting from the names [used]. *)
Fixpoint chosen (used filenames names : list string) : Prop :=
  match filenames, names with
  | [], [] => True
  | f :: fs, n :: ns => name_choice used f n ∧ chosen (used ++ [n]) fs ns
  | _, _ => False
  end.

(** What the network answers to the requests for [urls], the first of
    which is request number [i]. *)
Fixpoint answers (net : nat → string → get_result) (i : nat) (urls : list string)
  : list get_result :=
  match urls with
  | [] => []
  | url :: rest => net i url :: answers net (S i) rest
  end.

(** An item when its fetch is over. *)
Definition finalize (s : string) (x : item) : item := Item (name x) s 100.

(** [b] is [a], or [a] with one more element at the end. *)
Definition ext1 (a b : list nat) : Prop := b = a ∨ ∃ r, b = a ++ [r].

(** [grows a q b]: the snapshots [q], none of them terminal, start from
    the item list [a], each extends the list before it by at most one
    element, and they end with the item list [b]. *)
Inductive grows : list nat → list snapshot → list nat → Prop :=
| grows_nil a : grows a [] a
| grows_cons a s q b :
    done s = false → ext1 a (snap_items s) → grows (snap_items s) q b →
    grows a (s :: q) b.

(** The items and the archive a run ends with, for the names chosen and
    the answers of the network. *)
Definition final_items (names : list string) (results : list get_result) : list item :=
  zip_with (λ n res, Item n (final_status res) 100) names results.

Definition final_archive (names : list string) (results : list get_result) : archive :=
  concat (zip_with member_of names results).

(** The effects that end a run: the archive is saved and the terminal
    snapshot is put, unless saving fails. *)
Definition closing_actions (write_ok : bool) (task_id : string) : list action :=
  if write_ok then [ASave (OsPath.join TMP_DIR (task_id +:+ ".zip")); APut true]
  else [].

(** The world keeps [items] equal to the list of all heap addresses. *)
Definition wf (w : world) : Prop := items w = seq 0 (length (heap w)).

(** [start()] (lines 271-288), the view behind [login_required], on the
    value of [payload.get("urls", "")]. *)
Definition parse_urls (raw : string) : list string :=
  List.filter (λ u, negb (PyStr.is_empty u)) (PyStr.strip <$> PyStr.splitlines raw).

Definition start (raw : string) (srv : server) : http_reply * server :=
  let urls := parse_urls raw in
  match urls with
  | [] => (Reply400 "no urls provided", srv)
  | _ =>
      let task_id := uuid4 (uuid_calls srv) in
      (Reply200 task_id,
       Server (<[task_id := []]> (progress_queues srv))
              (threads srv ++ [(urls, task_id)])
              (S (uuid_calls srv)))
  end.

(** ** The rest of the server (source lines 99-116, 157-174, 246-297) *)

(** The account configured in the environment. *)
Variable APP_USERNAME : string.
Variable APP_PASSWORD : string.

Inductive http_method := GET | POST.

(** What [login] reads of a request: the method, the query arguments and
    the form fields. *)
Record login_request := LoginRequest {
  method : http_method;
  args : gmap string string;
  form : gmap string string
}.

(** [a or b] for strings: [a] unless it is missing or empty. *)
Definition or_str (a : option string) (b : string) : string :=
  match a with
  | Some s => if PyStr.is_empty s then b else s
  | None => b
  end.

(** [is_logged_in()]: [bool(session.get("logged_in"))], on the session
    dictionary. *)
Definition is_logged_in (session : gmap string bool) : bool :=
  default false (session !! "logged_in").

Inductive login_reply :=
| LoginRedirect (target : string)                     (* redirect(..) *)
| LoginPage (error : option string) (next_path : string).
                                                      (* the login form *)

(** [login()] (lines 157-169). *)
Definition login (req : login_request) (session : gmap string bool)
  : login_reply * gmap string bool :=
  let next_path := or_str (args req !! "next") (or_str (form req !! "next") "/") in
  match method req with
  | POST =>
      let username := PyStr.strip (default "" (form req !! "username")) in
      let password := PyStr.strip (default "" (form req !! "password")) in
      if bool_decide (username = APP_USERNAME)
         && bool_decide (password = APP_PASSWORD)
      then (LoginRedirect (or_str (Some next_path) "/"),
            <["logged_in" := true]> session)
      else (LoginPage (Some "账号或密码错误") next_path, session)
  | GET => (LoginPage None next_path, session)
  end.

(** [logout()] (lines 171-174): [session.clear()], then back to the
    login page. *)
Definition logout (session : gmap string bool)
  : login_reply * gmap string bool :=
  (LoginRedirect "/login", ∅).

(** The answer of a view wrapped by [login_required]. *)
Inductive gated (R : Type) :=
| Passed (r : R)           (* the view's own answer *)
| Unauthorized             (* jsonify({"error": "unauthorized"}), 401 *)
| ToLogin (next : string). (* redirect(url_for("login", next=request.path)) *)
Global Arguments Passed {R} r.
Global Arguments Unauthorized {R}.
Global Arguments ToLogin {R} next.

(** [request.path.startswith(..)] for the three API prefixes. *)
Definition api_path (path : string) : bool :=
  String.prefix "/start" path || String.prefix "/progress" path
  || String.prefix "/download_final" path.

(** [login_required(view_func)] (lines 102-115), for a view that acts on
    a state [S]. *)
Definition login_required {R S : Type} (view : S → R * S)
    (session : gmap string bool) (path : string) (st : S) : gated R * S :=
  if negb (is_logged_in session) then
    if api_path path then (Unauthorized, st) else (ToLogin path, st)
  else
    let '(r, st') := view st in (Passed r, st').





(** *** Notions used by the further properties *)

Definition is_put (a : action) : bool :=
  match a with APut _ => true | _ => false end.

(** The number of non-empty chunks a fetch gets to read. *)
Definition chunks_seen (res : get_result) : nat :=
  match res with
  | GetReturns r =>
      match http_error r, total_of (header_length r) with
      | None, inl _ => length (List.filter nonempty (chunks_read r))
      | _, _ => 0%nat
      end
  | GetRaises _ => 0%nat
  end.

(** An item whose fetch is over. *)
Definition item_final (x : item) : Prop :=
  status x ≠ "下载中" ∧ progress x = 100.

(** What a snapshot may show of an item: its fetch is over, or it is
    the last item of a snapshot that is not terminal and is still being
    fetched. *)
Definition shown_settled (v : list item * bool) : Prop :=
  ∀ i x, v.1 !! i = Some x →
         item_final x
         ∨ (S i = length v.1 ∧ v.2 = false ∧ status x = "下载中").

(** URLs one per line. *)
Fixpoint join_lines (urls : list string) : string :=
  match urls with
  | [] => ""
  | [u] => u
  | u :: rest => u +:+ String "010" (join_lines rest)
  end.

(** A URL as [parse_urls] returns them: not empty, no white space at
    either end, no line boundary inside. *)
Definition clean_url (u : string) : Prop :=
  u ≠ "" ∧ PyStr.strip u = u
  ∧ PyStr.all (λ c, negb (PyStr.line_break c)) u = true.

(** While the observer's loop runs it has received no terminal
    snapshot; the archive in memory and the files on disk are those the
    worker has produced so far. *)
Definition sys_live (T : list action) (w0 : world) (s : sys) : Prop :=
  (∃ performed,
     T = performed ++ pending s
     ∧ zf (shared s) = zf (replay performed w0)
     ∧ files (shared s) = files (replay performed w0))
  ∧ (listening s = true → Forall (λ x, done x = false) (delivered s)).

(** ** Properties *)

(** *** Strings *)

Lemma str_app_cons (c : ascii) (a b : string) :
  String c a +:+ b = String c (a +:+ b).
Proof. reflexivity. Qed.

Lemma str_app_nil_l (b : string) : "" +:+ b = b.
Proof. reflexivity. Qed.

(** [String.append] does not unfold under [simpl]; [ssimpl] pushes it
    inwards first. *)
Ltac ssimpl := simpl; rewrite ?str_app_cons, ?str_app_nil_l; simpl.
Tactic Notation "ssimpl" "in" hyp(H) :=
  simpl in H; rewrite ?str_app_cons, ?str_app_nil_l in H; simpl in H.

Lemma str_length_app (a b : string) :
  String.length (a +:+ b) = (String.length a + String.length b)%nat.
Proof. induction a as [|c a IH]; ssimpl; [done | by rewrite IH]. Qed.

Lemma str_app_nil_r (a : string) : a +:+ "" = a.
Proof. induction a as [|c a IH]; ssimpl; [done | by rewrite IH]. Qed.

Lemma str_app_assoc (a b c : string) : (a +:+ b) +:+ c = a +:+ b +:+ c.
Proof. induction a as [|x a IH]; ssimpl; [done | by rewrite IH]. Qed.

Lemma str_app_inj_r (e a b : string) : a +:+ e = b +:+ e → a = b.
Proof.
  revert b. induction a as [|x a IH]; intros [|y b] H; ssimpl in H.
  - done.
  - apply (f_equal String.length) in H. simpl in H.
    rewrite str_length_app in H. lia.
  - apply (f_equal String.length) in H. simpl in H.
    rewrite str_length_app in H. lia.
  - injection H as -> H. f_equal. by apply IH.
Qed.

Lemma take_drop (n : nat) (s : string) : PyStr.take n s +:+ PyStr.drop n s = s.
Proof.
  revert s. induction n as [|n IH]; intros [|c s]; ssimpl; try done.
  by rewrite IH.
Qed.

Lemma take_length_le (n : nat) (s : string) :
  (String.length (PyStr.take n s) ≤ n)%nat.
Proof.
  revert s. induction n as [|n IH]; intros [|c s]; simpl; try lia.
  specialize (IH s). lia.
Qed.

Lemma take_all (n : nat) (s : string) :
  (String.length s ≤ n)%nat → PyStr.take n s = s.
Proof.
  revert s. induction n as [|n IH]; intros [|c s]; simpl; try done; try lia.
  intros H. rewrite IH; [done | lia].
Qed.

Lemma take_nonempty (n : nat) (s : string) :
  (0 < n)%nat → s ≠ "" → PyStr.take n s ≠ "".
Proof. destruct n, s; simpl; try done; lia. Qed.

Lemma drop_app_length (a b : string) : PyStr.drop (String.length a) (a +:+ b) = b.
Proof. induction a as [|c a IH]; ssimpl; [by destruct b | done]. Qed.

Lemma all_take (p : ascii → bool) (n : nat) (s : string) :
  PyStr.all p s = true → PyStr.all p (PyStr.take n s) = true.
Proof.
  revert s. induction n as [|n IH]; intros [|c s]; simpl; try done.
  intros [? ?]%andb_true_iff. rewrite IH; [|done]. by apply andb_true_iff.
Qed.

(** The class of [_filename_sanitize_re], character by character. *)
Lemma safe_char_spec (c : ascii) :
  safe_char c =
  PyStr.contains c
    "ABCDEFGHIJKLMNOPQRSTUVWXYZabcdefghijklmnopqrstuvwxyz0123456789._-".
Proof. by destruct c as [[] [] [] [] [] [] [] []]. Qed.

Lemma sanitize_char_safe (c : ascii) : safe_char (sanitize_char c) = true.
Proof. unfold sanitize_char. by destruct (safe_char c) eqn:E. Qed.

Lemma all_safe_map (s : string) :
  PyStr.all safe_char (PyStr.map sanitize_char s) = true.
Proof.
  induction s as [|c s IH]; simpl; [done|].
  by rewrite sanitize_char_safe, IH.
Qed.

Lemma before_first_spec (c : ascii) (s : string) :
  PyStr.contains c (PyStr.before_first c s) = false
  ∧ (s = PyStr.before_first c s
     ∨ ∃ rest, s = PyStr.before_first c s +:+ String c rest).
Proof.
  induction s as [|a s [IH1 IH2]]; simpl; [by auto|].
  destruct (Ascii.eqb_spec a c) as [->|Hne]; simpl.
  - split; [done|]. right. by exists s.
  - rewrite IH1. split.
    + by apply orb_false_iff; split; [apply Ascii.eqb_neq|].
    + destruct IH2 as [IH2|[rest IH2]].
      * left. by rewrite <-IH2.
      * right. exists rest. by rewrite str_app_cons, <-IH2.
Qed.

Lemma rfind_from_spec (c : ascii) (s : string) (i last : Z) :
  (PyStr.contains c s = false ∧ PyStr.rfind_from i last c s = last)
  ∨ (∃ pre suf, s = pre +:+ String c suf ∧ PyStr.contains c suf = false
       ∧ PyStr.rfind_from i last c s = i + Z.of_nat (String.length pre)).
Proof.
  revert i last. induction s as [|a s IH]; intros i last; simpl; [by left|].
  destruct (IH (i + 1) (if Ascii.eqb a c then i else last))
    as [[Hno Hr]|(pre & suf & -> & Hno & Hr)].
  - destruct (Ascii.eqb_spec a c) as [->|Hne].
    + right. exists "", s. ssimpl. split_and!; [done..|]. rewrite Hr. lia.
    + left. by rewrite Hno.
  - right. exists (String a pre), suf. ssimpl. split_and!; [done..|].
    rewrite Hr. lia.
Qed.

Lemma rfind_spec (c : ascii) (s : string) :
  (PyStr.contains c s = false ∧ PyStr.rfind c s = -1)
  ∨ (∃ pre suf, s = pre +:+ String c suf ∧ PyStr.contains c suf = false
       ∧ PyStr.rfind c s = Z.of_nat (String.length pre)).
Proof. apply (rfind_from_spec c s 0 (-1)). Qed.

Lemma basename_spec (p : string) :
  PyStr.contains "/" (OsPath.basename p) = false
  ∧ (p = OsPath.basename p ∨ ∃ dir, p = dir +:+ String "/" (OsPath.basename p)).
Proof.
  unfold OsPath.basename.
  destruct (rfind_spec "/" p) as [[Hno ->]|(pre & suf & -> & Hno & ->)]; simpl.
  - destruct p; auto.
  - replace (Z.to_nat (Z.of_nat (String.length pre) + 1))
      with (String.length (pre +:+ "/")) by (rewrite str_length_app; simpl; lia).
    replace (pre +:+ String "/" suf) with ((pre +:+ "/") +:+ suf)
      by (by rewrite str_app_assoc).
    rewrite drop_app_length. split; [done|]. right. exists pre.
    by rewrite str_app_assoc.
Qed.

Lemma splitext_app (p base ext : string) :
  OsPath.splitext p = (base, ext) → p = base +:+ ext.
Proof.
  unfold OsPath.splitext. case_match; intros [= <- <-].
  - by rewrite take_drop.
  - by rewrite str_app_nil_r.
Qed.

(** *** Filename Resolver *)

Lemma sanitize_filename_eq (name : string) :
  name ≠ "" →
  sanitize_filename name = PyStr.take 200 (PyStr.map sanitize_char name).
Proof.
  intros Hne. unfold sanitize_filename, sanitize_filename_len.
  destruct name as [|c name]; [done|]. cbv [PyStr.is_empty].
  destruct (Nat.ltb_spec 200 (String.length (PyStr.map sanitize_char (String c name))));
    [done|].
  by rewrite take_all.
Qed.

Lemma sanitize_filename_safe (name : string) :
  PyStr.all safe_char (sanitize_filename name) = true
  ∧ (String.length (sanitize_filename name) ≤ 200)%nat
  ∧ sanitize_filename name ≠ "".
Proof.
  assert (∀ n, n ≠ "" →
    PyStr.all safe_char (sanitize_filename n) = true
    ∧ (String.length (sanitize_filename n) ≤ 200)%nat
    ∧ sanitize_filename n ≠ "") as Hgen.
  { intros n Hn. rewrite (sanitize_filename_eq n Hn). split_and!.
    - apply all_take, all_safe_map.
    - apply take_length_le.
    - apply take_nonempty; [lia|]. by destruct n. }
  destruct name as [|c name]; [|by apply Hgen].
  by apply (Hgen "file").
Qed.

(** C8. For every URL the resolver cuts the URL at the first [?], takes
    the part of the parsed path after its last [/], replaces it by
    [file.jpg] when it is empty, appends [.jpg] when it holds no dot,
    replaces each character outside [[A-Za-z0-9._-]] by [_] and keeps at
    most 200 characters.  It is a total function, and when the URL cannot
    be parsed the result is the default name [file.jpg]. *)
Theorem c8_filename_resolver (url : string) :
  ∃ clean candidate,
    (PyStr.contains "?" clean = false
     ∧ (url = clean ∨ ∃ query, url = clean +:+ String "?" query))
    ∧ match urlparse_path clean with
      | None => candidate = "file.jpg"
      | Some path =>
          ∃ segment,
            PyStr.contains "/" segment = false
            ∧ (path = segment ∨ ∃ dir, path = dir +:+ String "/" segment)
            ∧ candidate =
                if PyStr.is_empty segment then "file.jpg"
                else if PyStr.contains "." segment then segment
                else segment +:+ ".jpg"
      end
    ∧ extract_filename_from_url url
      = PyStr.take 200 (PyStr.map sanitize_char candidate)
    ∧ (∀ c, sanitize_char c = if safe_char c then c else "_"%char)
    ∧ (∀ c, safe_char c =
            PyStr.contains c
              "ABCDEFGHIJKLMNOPQRSTUVWXYZabcdefghijklmnopqrstuvwxyz0123456789._-")
    ∧ (String.length (extract_filename_from_url url) ≤ 200)%nat
    ∧ PyStr.all safe_char (extract_filename_from_url url) = true
    ∧ (urlparse_path clean = None → extract_filename_from_url url = "file.jpg").
Proof.
  pose proof (before_first_spec "?" url) as Hq.
  exists (PyStr.before_first "?" url).
  assert (PyStr.all safe_char (extract_filename_from_url url) = true
          ∧ (String.length (extract_filename_from_url url) ≤ 200)%nat) as [Hs Hl].
  { unfold extract_filename_from_url.
    destruct (urlparse_path _); split; apply sanitize_filename_safe. }
  assert (∀ c, sanitize_char c = if safe_char c then c else "_"%char) as Hc by done.
  pose proof safe_char_spec as Hclass.
  revert Hs Hl. unfold extract_filename_from_url.
  destruct (urlparse_path (PyStr.before_first "?" url)) as [path|] eqn:Hp;
    intros Hs Hl.
  - pose proof (basename_spec path) as [Hb1 Hb2].
    exists (if PyStr.is_empty (OsPath.basename path) then "file.jpg"
            else if PyStr.contains "." (OsPath.basename path)
                 then OsPath.basename path
                 else OsPath.basename path +:+ ".jpg").
    split; [done|]. split; [by exists (OsPath.basename path)|].
    split; [|done].
    destruct (OsPath.basename path) as [|c seg] eqn:Hseg; simpl.
    + by rewrite sanitize_filename_eq.
    + destruct (Ascii.eqb c "." || PyStr.contains "." seg); simpl;
        by rewrite sanitize_filename_eq.
  - by exists "file.jpg".
Qed.

(** *** Effects and their replay *)

Lemma replay_app (t1 t2 : list action) (w : world) :
  replay (t1 ++ t2) w = replay t2 (replay t1 w).
Proof. apply foldl_app. Qed.

Lemma replay_cons (a : action) (t : list action) (w : world) :
  replay (a :: t) w = replay t (run_action a w).
Proof. done. Qed.

Lemma emit_extend (a : action) (st : wstate) : emit a st = extend st [a].
Proof. done. Qed.

Lemma extend_nil (st : wstate) : extend st [] = st.
Proof. destruct st. unfold extend. simpl. by rewrite app_nil_r. Qed.

Lemma extend_extend (st : wstate) (t1 t2 : list action) :
  extend (extend st t1) t2 = extend st (t1 ++ t2).
Proof. unfold extend. simpl. by rewrite replay_app, app_assoc. Qed.

Lemma puts_app (t1 t2 : list action) (w : world) :
  puts (t1 ++ t2) w = puts t1 w ++ puts t2 (replay t1 w).
Proof.
  revert w. induction t1 as [|a t1 IH]; intros w; simpl; [done|].
  by rewrite IH, app_assoc.
Qed.

Lemma emitted_app (t1 t2 : list action) (w : world) :
  emitted (t1 ++ t2) w = emitted t1 w ++ emitted t2 (replay t1 w).
Proof.
  revert w. induction t1 as [|a t1 IH]; intros w; simpl; [done|].
  by rewrite IH, app_assoc.
Qed.

Lemma queue_replay (t : list action) (w : world) :
  queue (replay t w) = queue w ++ puts t w.
Proof.
  revert w. induction t as [|a t IH]; intros w; simpl.
  - by rewrite app_nil_r.
  - unfold replay in *. simpl. rewrite IH.
    destruct a; simpl; by rewrite <-?app_assoc.
Qed.

Lemma wf_run (a : action) (w : world) : wf w → wf (run_action a w).
Proof.
  unfold wf. destruct a; simpl; intros ->; rewrite ?length_alter; try done.
  by rewrite length_app, Nat.add_1_r, seq_S.
Qed.

Lemma wf_replay (t : list action) (w : world) : wf w → wf (replay t w).
Proof.
  revert w. induction t as [|a t IH]; intros w Hw; [done|].
  apply (IH (run_action a w)), wf_run, Hw.
Qed.

Lemma item_list_wf (w : world) : wf w → item_list w = heap w.
Proof.
  unfold wf, item_list. intros ->. apply list_eq. intros i.
  rewrite list_lookup_fmap.
  destruct (decide (i < length (heap w))%nat) as [Hlt|Hge].
  - rewrite lookup_seq_lt by done. simpl.
    destruct (lookup_lt_is_Some_2 (heap w) i Hlt) as [x Hx].
    by rewrite Hx, (list_lookup_total_correct _ _ _ Hx).
  - rewrite lookup_seq_ge by lia. simpl.
    symmetry. apply lookup_ge_None. lia.
Qed.

Lemma view_wf (w : world) (d : bool) :
  wf w → view w (Snapshot (items w) d) = (heap w, d).
Proof. intros Hw. unfold view. simpl. f_equal. by apply item_list_wf. Qed.

(** *** The worker performs the listed effects *)

Lemma fail_item_extend (it : nat) (msg : string) (st : wstate) :
  fail_item it msg st = extend st (fail_actions it msg).
Proof.
  unfold fail_item, fail_actions. by rewrite !emit_extend, !extend_extend.
Qed.

Lemma chunk_loop_extend (it : nat) (total : Z) (chunks : list bytes)
    (st : wstate) (d : Z) (cs : list bytes) :
  ∃ d' cs',
    foldl (read_chunk it total) (st, d, cs) chunks
    = (extend st (chunk_actions it total d chunks), d', cs')
    ∧ concat cs' = concat cs ++ concat chunks.
Proof.
  revert st d cs. induction chunks as [|c chunks IH]; intros st d cs; simpl.
  - exists d, cs. by rewrite extend_nil, app_nil_r.
  - destruct c as [|b c]; simpl.
    + apply IH.
    + destruct (IH (emit (APut false)
                      (emit (ASetProgress it
                               (percent (d + Z.of_nat (S (length c))) total)) st))
                   (d + Z.of_nat (S (length c))) (cs ++ [b :: c]))
        as (d' & cs' & -> & Hcs).
      exists d', cs'. split.
      * by rewrite !emit_extend, !extend_extend.
      * rewrite Hcs, concat_app. simpl. by rewrite app_nil_r, <-app_assoc.
Qed.

Lemma fetch_extend (it : nat) (unique_name : string) (res : get_result)
    (st : wstate) :
  fetch it unique_name res st = extend st (fetch_actions it unique_name res).
Proof.
  unfold fetch, fetch_actions.
  destruct res as [msg|r]; [apply fail_item_extend|].
  destruct (http_error r); [apply fail_item_extend|].
  destruct (total_of (header_length r)) as [total|msg]; [|apply fail_item_extend].
  destruct (chunk_loop_extend it total (chunks_read r) st 0 [])
    as (d' & cs' & -> & Hcs). simpl in Hcs.
  destruct (stream_error r).
  - by rewrite fail_item_extend, extend_extend.
  - by rewrite !emit_extend, !extend_extend, Hcs.
Qed.

(** *** The loop that makes a name unique *)

Lemma name_taken_spec (w : world) (n : string) :
  name_taken w n = true ↔ n ∈ name <$> item_list w.
Proof.
  unfold name_taken, item_list. rewrite existsb_exists. split.
  - intros (r & Hr & Hn). apply bool_decide_eq_true in Hn. subst n.
    apply list_elem_of_fmap. eexists. split; [done|].
    apply list_elem_of_fmap. exists r. split; [done|]. by apply list_elem_of_In.
  - intros (it & -> & (r & -> & Hr)%list_elem_of_fmap)%list_elem_of_fmap.
    exists r. split; [by apply list_elem_of_In|]. by apply bool_decide_eq_true.
Qed.

Lemma suffixed_eq (filename base ext : string) (k : nat) :
  OsPath.splitext filename = (base, ext) →
  suffixed filename k = base +:+ "_" +:+ pretty k +:+ ext.
Proof. unfold suffixed. by intros ->. Qed.

Lemma suffixed_inj (filename : string) : Inj (=) (=) (suffixed filename).
Proof.
  intros j k. unfold suffixed. destruct (OsPath.splitext filename) as [base ext].
  intros H%String.app_inj. ssimpl in H. injection H as H.
  apply str_app_inj_r in H. by apply (inj pretty).
Qed.

Lemma suffixed_ne (filename : string) (k : nat) : suffixed filename k ≠ filename.
Proof.
  unfold suffixed. destruct (OsPath.splitext filename) as [base ext] eqn:E.
  apply splitext_app in E. intros H%(f_equal String.length).
  rewrite E, !str_length_app in H. simpl in H. lia.
Qed.

Section UniqueLoop.

Variables (w : world) (filename base ext : string).
Hypothesis Hsplit : OsPath.splitext filename = (base, ext).

Lemma unique_name_loop_some (fuel : nat) (c : string) (s : nat) (n : string) :
  unique_name_loop fuel w base ext c s = Some n →
  name_taken w n = false
  ∧ (n = c
     ∨ (name_taken w c = true
        ∧ ∃ k, (s ≤ k)%nat ∧ n = suffixed filename k
               ∧ ∀ j, (s ≤ j < k)%nat → name_taken w (suffixed filename j) = true)).
Proof.
  revert c s. induction fuel as [|fuel IH]; intros c s; simpl;
    destruct (name_taken w c) eqn:Hc; try done.
  - intros [= ->]. auto.
  - rewrite <-(suffixed_eq filename base ext s Hsplit).
    intros (Hn & Hcase)%IH. split; [done|]. right. split; [done|].
    destruct Hcase as [->|(Hs & k & Hk & -> & Hall)].
    + exists s. split_and!; [lia|done|]. intros j ?. lia.
    + exists k. split_and!; [lia|done|]. intros j Hj.
      destruct (decide (j = s)) as [->|]; [done|]. apply Hall. lia.
  - intros [= ->]. auto.
Qed.

Lemma unique_name_loop_none (fuel : nat) (c : string) (s : nat) :
  unique_name_loop fuel w base ext c s = None →
  name_taken w c = true
  ∧ ∀ j, (s ≤ j < s + fuel)%nat → name_taken w (suffixed filename j) = true.
Proof.
  revert c s. induction fuel as [|fuel IH]; intros c s; simpl;
    destruct (name_taken w c) eqn:Hc; try done.
  - intros _. split; [done|]. intros j ?. lia.
  - rewrite <-(suffixed_eq filename base ext s Hsplit).
    intros (Hs & Hall)%IH. split; [done|]. intros j Hj.
    destruct (decide (j = s)) as [->|]; [done|]. apply Hall. lia.
Qed.

(** With as many iterations as there are items the loop always ends: the
    candidates are pairwise distinct, so they cannot all be taken. *)
Lemma unique_name_loop_total :
  ∃ n, unique_name_loop (length (items w)) w base ext filename 1 = Some n.
Proof.
  destruct (unique_name_loop _ _ _ _ _ _) as [n|] eqn:E; [by exists n|].
  apply unique_name_loop_none in E as [H0 Hall]. exfalso.
  set (L := filename :: (suffixed filename <$> seq 1 (length (items w)))).
  assert (NoDup L) as Hnd.
  { apply NoDup_cons. split.
    - intros (k & Hk & _)%list_elem_of_fmap. by apply (suffixed_ne filename k).
    - pose proof (suffixed_inj filename) as Hinj.
      apply (NoDup_fmap_2 _), NoDup_seq. }
  assert (L ⊆+ name <$> item_list w) as Hsub.
  { apply NoDup_submseteq; [done|]. intros x [->|Hx]%elem_of_cons.
    - by apply name_taken_spec.
    - apply list_elem_of_fmap in Hx as (k & -> & Hk%elem_of_seq).
      apply name_taken_spec, Hall. lia. }
  apply submseteq_length in Hsub. unfold L, item_list in Hsub.
  simpl in Hsub. rewrite !length_fmap, length_seq in Hsub. lia.
Qed.

End UniqueLoop.

Lemma download_one_extend (st : wstate) (url : string) (res : get_result) :
  ∃ n,
    name_choice (name <$> item_list (cur st)) (extract_filename_from_url url) n
    ∧ download_one st url res
      = Some (extend st (url_actions (length (heap (cur st))) n res)).
Proof.
  unfold download_one.
  destruct (OsPath.splitext (extract_filename_from_url url)) as [base ext] eqn:Hsp.
  destruct (unique_name_loop_total (cur st) _ base ext Hsp) as [n Hn].
  rewrite Hn. exists n. split.
  - apply (unique_name_loop_some _ _ _ _ Hsp) in Hn as [Hfree Hcase]. split.
    + rewrite <-name_taken_spec. by rewrite Hfree.
    + destruct Hcase as [->|(Ht & k & Hk & -> & Hall)]; [by left|right].
      split; [by apply name_taken_spec|].
      exists k. split_and!; [done..|]. intros j Hj. by apply name_taken_spec, Hall.
  - by rewrite fetch_extend, !emit_extend, !extend_extend.
Qed.

(** *** The world after the effects of one URL *)

Lemma grows_app (a b c : list nat) (q1 q2 : list snapshot) :
  grows a q1 b → grows b q2 c → grows a (q1 ++ q2) c.
Proof. induction 1; simpl; [done|]. intros. constructor; auto. Qed.

Lemma grows_replicate (a : list nat) (k : nat) :
  grows a (replicate k (Snapshot a false)) a.
Proof.
  induction k as [|k IH]; simpl; constructor; [done|by left|done].
Qed.

Lemma grows_replicate_new (a : list nat) (r k : nat) :
  grows a (replicate (S k) (Snapshot (a ++ [r]) false)) (a ++ [r]).
Proof.
  simpl. constructor; [done|right; by exists r|apply grows_replicate].
Qed.

Lemma list_alter_compose {A} (f g : A → A) (i : nat) (l : list A) :
  alter (f ∘ g) i l = alter f i (alter g i l).
Proof.
  revert i. induction l as [|x l IH]; intros [|i]; simpl; try done.
  f_equal. apply IH.
Qed.

Lemma alter_finalize (s : string) (f : item → item) (it : nat) (h : list item) :
  (∀ x, name (f x) = name x) →
  alter (finalize s) it (alter f it h) = alter (finalize s) it h.
Proof.
  intros Hf. rewrite <-list_alter_compose. apply list_alter_ext; [|done].
  intros x _. unfold finalize. simpl. by rewrite Hf.
Qed.

Lemma replay_chunk_actions (it : nat) (total d : Z) (chunks : list bytes)
    (w : world) :
  ∃ f k,
    (∀ x, name (f x) = name x)
    ∧ replay (chunk_actions it total d chunks) w
      = World (alter f it (heap w)) (items w)
              (queue w ++ replicate k (Snapshot (items w) false)) (zf w) (files w).
Proof.
  revert d w. induction chunks as [|c chunks IH]; intros d w; simpl.
  - exists id, 0%nat. split; [done|]. destruct w. simpl.
    by rewrite list_alter_id, app_nil_r.
  - destruct (nonempty c); [|apply IH].
    rewrite !replay_cons.
    edestruct IH as (f & k & Hf & ->). simpl.
    eexists (f ∘ set_progress _), (S k). split; [intros x; simpl; by rewrite Hf|].
    rewrite <-list_alter_compose. simpl. by rewrite <-app_assoc.
Qed.

Lemma replay_fail_actions (it : nat) (msg : string) (w : world) :
  replay (fail_actions it msg) w
  = World (alter (finalize ("失败: " +:+ msg)) it (heap w)) (items w)
          (queue w ++ [Snapshot (items w) false]) (zf w) (files w).
Proof.
  unfold fail_actions, replay. simpl. f_equal.
  rewrite <-list_alter_compose. by apply list_alter_ext.
Qed.

Lemma replay_fetch_actions (it : nat) (n : string) (res : get_result) (w : world) :
  ∃ k,
    replay (fetch_actions it n res) w
    = World (alter (finalize (final_status res)) it (heap w)) (items w)
            (queue w ++ replicate (S k) (Snapshot (items w) false))
            (zf w ++ member_of n res) (files w).
Proof.
  unfold fetch_actions, final_status, member_of, payload_of, failure_of.
  destruct res as [msg|r].
  { exists 0%nat. by rewrite replay_fail_actions, app_nil_r. }
  destruct (http_error r).
  { exists 0%nat. by rewrite replay_fail_actions, app_nil_r. }
  destruct (total_of (header_length r)) as [total|msg].
  2:{ exists 0%nat. by rewrite replay_fail_actions, app_nil_r. }
  rewrite replay_app.
  destruct (replay_chunk_actions it total 0 (chunks_read r) w)
    as (f & k & Hf & ->).
  exists k. destruct (stream_error r).
  - rewrite replay_fail_actions. simpl.
    rewrite alter_finalize by done. f_equal; [|by rewrite app_nil_r].
    rewrite <-app_assoc. f_equal. by rewrite <-replicate_S_end.
  - rewrite !replay_cons. simpl. f_equal.
    + rewrite <-(alter_finalize "完成" f) by done.
      rewrite <-!list_alter_compose. by apply list_alter_ext.
    + rewrite <-app_assoc. f_equal. by rewrite <-replicate_S_end.
Qed.

Lemma replay_url_actions (n : string) (res : get_result) (w : world) :
  ∃ k,
    replay (url_actions (length (heap w)) n res) w
    = World (heap w ++ [Item n (final_status res) 100])
            (items w ++ [length (heap w)])
            (queue w ++ replicate (S (S k))
                          (Snapshot (items w ++ [length (heap w)]) false))
            (zf w ++ member_of n res) (files w).
Proof.
  unfold url_actions. rewrite replay_app.
  edestruct replay_fetch_actions as [k ->]. exists k. simpl. f_equal.
  - rewrite <-(Nat.add_0_r (length (heap w))) at 1. by rewrite alter_app_r.
  - by rewrite <-app_assoc.
Qed.

(** *** The world after the whole loop *)

Lemma chosen_length (used filenames names : list string) :
  chosen used filenames names → length names = length filenames.
Proof.
  revert used names. induction filenames as [|f fs IH]; intros used [|n ns];
    simpl; try done.
  intros [_ H]. f_equal. by eapply IH.
Qed.

Lemma for_urls_spec (net : nat → string → get_result) (urls : list string) :
  ∀ (i : nat) (st : wstate),
    wf (cur st) →
    ∃ t names q,
      for_urls net i urls st = Some (extend st t)
      ∧ chosen (name <$> heap (cur st)) (extract_filename_from_url <$> urls) names
      ∧ replay t (cur st)
        = World (heap (cur st) ++ final_items names (answers net i urls))
                (seq 0 (length (heap (cur st)) + length urls))
                (queue (cur st) ++ q)
                (zf (cur st) ++ final_archive names (answers net i urls))
                (files (cur st))
      ∧ grows (items (cur st)) q (seq 0 (length (heap (cur st)) + length urls)).
Proof.
  induction urls as [|url urls IH]; intros i st Hwf; simpl.
  - exists [], [], []. rewrite extend_nil. split_and!; [done..| |].
    + destruct (cur st) eqn:E. simpl. rewrite !app_nil_r, Nat.add_0_r.
      f_equal. by rewrite Hwf in *.
    + rewrite Nat.add_0_r, <-Hwf. constructor.
  - destruct (download_one_extend st url (net i url)) as (n & Hn & ->).
    rewrite (item_list_wf _ Hwf) in Hn.
    destruct (replay_url_actions n (net i url) (cur st)) as [k Hw1].
    set (st1 := extend st (url_actions (length (heap (cur st))) n (net i url))).
    assert (wf (cur st1)) as Hwf1 by (by apply wf_replay).
    destruct (IH (S i) st1 Hwf1) as (t & names & q & -> & Hch & Hw & Hg).
    unfold st1, extend in Hch, Hw, Hg. cbn [cur] in Hch, Hw, Hg.
    rewrite Hw1 in Hch, Hw, Hg. cbn [heap items queue zf files] in Hch, Hw, Hg.
    rewrite length_app in Hw, Hg. rewrite fmap_app in Hch.
    cbn [length fmap list_fmap name] in Hch, Hw, Hg.
    replace (length (heap (cur st)) + 1 + length urls)%nat
      with (length (heap (cur st)) + S (length urls))%nat in Hw, Hg by lia.
    eexists _, (n :: names), _. split; [|split; [|split]].
    + unfold st1. by rewrite extend_extend.
    + done.
    + rewrite replay_app, Hw1, Hw. unfold final_items, final_archive.
      cbn [answers zip_with concat length].
      f_equal; by rewrite <-?app_assoc.
    + eapply grows_app; [|done]. apply grows_replicate_new.
Qed.

Lemma download_worker_spec (urls : list string) (net : nat → string → get_result)
    (write_ok : bool) (fs : gmap string archive) (task_id : string) :
  ∃ t names q,
    download_worker urls net write_ok fs task_id
    = Some (WState (replay (t ++ closing_actions write_ok task_id) (new_world fs))
                   (t ++ closing_actions write_ok task_id))
    ∧ chosen [] (extract_filename_from_url <$> urls) names
    ∧ replay t (new_world fs)
      = World (final_items names (answers net 1 urls)) (seq 0 (length urls)) q
              (final_archive names (answers net 1 urls)) fs
    ∧ grows [] q (seq 0 (length urls)).
Proof.
  unfold download_worker.
  destruct (for_urls_spec net urls 1 (WState (new_world fs) []))
    as (t & names & q & -> & Hch & Hw & Hg); [done|].
  exists t, names, q. split_and!; try done.
  unfold closing_actions. destruct write_ok.
  - by rewrite !emit_extend, !extend_extend.
  - by rewrite app_nil_r.
Qed.

Lemma replay_closing (write_ok : bool) (task_id : string) (w : world) :
  replay (closing_actions write_ok task_id) w
  = World (heap w) (items w)
          (queue w ++ if write_ok then [Snapshot (items w) true] else [])
          (zf w)
          (if write_ok
           then <[OsPath.join TMP_DIR (task_id +:+ ".zip") := zf w]> (files w)
           else files w).
Proof.
  unfold closing_actions. destruct write_ok, w; simpl; [done|].
  by rewrite app_nil_r.
Qed.

Lemma answers_length (net : nat → string → get_result) (i : nat) (urls : list string) :
  length (answers net i urls) = length urls.
Proof. revert i. induction urls; intros i; simpl; [done|]. by rewrite IHurls. Qed.

Lemma answers_lookup (net : nat → string → get_result) (i j : nat)
    (urls : list string) :
  answers net i urls !! j = net (i + j)%nat <$> urls !! j.
Proof.
  revert i j. induction urls as [|u urls IH]; intros i [|j]; simpl; try done.
  - by rewrite Nat.add_0_r.
  - rewrite IH. by replace (S i + j)%nat with (i + S j)%nat by lia.
Qed.

Lemma final_items_names (names : list string) (results : list get_result) :
  length names = length results → name <$> final_items names results = names.
Proof.
  revert results. induction names as [|n names IH]; intros [|r results];
    simpl; try done.
  intros [= H]. unfold final_items in *. simpl. by rewrite IH.
Qed.

Lemma final_items_lookup (names : list string) (results : list get_result)
    (i : nat) (n : string) (res : get_result) :
  names !! i = Some n → results !! i = Some res →
  final_items names results !! i = Some (Item n (final_status res) 100).
Proof.
  intros Hn Hr. unfold final_items. by rewrite lookup_zip_with, Hn, Hr.
Qed.

Lemma chosen_lookup (used filenames names : list string) (i : nat) (f : string) :
  chosen used filenames names → filenames !! i = Some f →
  ∃ n, names !! i = Some n ∧ name_choice (used ++ take i names) f n.
Proof.
  revert used names i. induction filenames as [|f' fs IH];
    intros used [|n ns] [|i]; simpl; try done.
  - intros [Hn _] [= ->]. exists n. by rewrite app_nil_r.
  - intros [_ Hch] Hf. destruct (IH _ _ _ Hch Hf) as (n' & ? & Hc).
    exists n'. split; [done|]. by rewrite <-app_assoc in Hc.
Qed.

Lemma chosen_NoDup (used filenames names : list string) :
  chosen used filenames names → NoDup used → NoDup (used ++ names).
Proof.
  revert used names. induction filenames as [|f fs IH]; intros used [|n ns];
    simpl; try done.
  - by rewrite app_nil_r.
  - intros [[Hfree _] Hch] Hnd.
    replace (used ++ n :: ns) with ((used ++ [n]) ++ ns) by (by rewrite <-app_assoc).
    apply (IH _ _ Hch). apply NoDup_app. split_and!; [done| |apply NoDup_singleton].
    intros x Hx ->%list_elem_of_singleton. done.
Qed.

(** The final state of a run, in one statement: the items, the queue and
    the archive, for the names chosen and the answers of the network. *)
Lemma download_worker_final (urls : list string) (net : nat → string → get_result)
    (write_ok : bool) (fs : gmap string archive) (task_id : string) :
  ∃ st t names q,
    download_worker urls net write_ok fs task_id = Some st
    ∧ trace st = t ++ closing_actions write_ok task_id
    ∧ chosen [] (extract_filename_from_url <$> urls) names
    ∧ replay t (new_world fs)
      = World (final_items names (answers net 1 urls)) (seq 0 (length urls)) q
              (final_archive names (answers net 1 urls)) fs
    ∧ grows [] q (seq 0 (length urls))
    ∧ cur st
      = World (final_items names (answers net 1 urls)) (seq 0 (length urls))
              (q ++ if write_ok then [Snapshot (seq 0 (length urls)) true] else [])
              (final_archive names (answers net 1 urls))
              (if write_ok
               then <[OsPath.join TMP_DIR (task_id +:+ ".zip")
                      := final_archive names (answers net 1 urls)]> fs
               else fs)
    ∧ item_list (cur st) = final_items names (answers net 1 urls)
    ∧ name <$> item_list (cur st) = names.
Proof.
  destruct (download_worker_spec urls net write_ok fs task_id)
    as (t & names & q & -> & Hch & Hw & Hg).
  eexists _, t, names, q. split; [done|]. cbn [cur trace].
  assert (replay (t ++ closing_actions write_ok task_id) (new_world fs)
          = World (final_items names (answers net 1 urls)) (seq 0 (length urls))
              (q ++ if write_ok then [Snapshot (seq 0 (length urls)) true] else [])
              (final_archive names (answers net 1 urls))
              (if write_ok
               then <[OsPath.join TMP_DIR (task_id +:+ ".zip")
                      := final_archive names (answers net 1 urls)]> fs
               else fs)) as Hfin.
  { by rewrite replay_app, Hw, replay_closing. }
  assert (wf (replay (t ++ closing_actions write_ok task_id) (new_world fs)))
    as Hwf by (by apply wf_replay).
  rewrite (item_list_wf _ Hwf), Hfin. cbn [heap].
  split_and!; try done.
  apply final_items_names. rewrite answers_length, (chosen_length _ _ _ Hch).
  by rewrite length_fmap.
Qed.

(** *** C1: unique names *)

(** C1. For every task the worker ends with one item per URL, in
    submission order; the names of the items are pairwise distinct; and
    the name of each item is the resolved file name of its URL when no
    earlier item has it, and otherwise that name with [_k] inserted before
    the extension, for the first [k = 1, 2, ...] that gives a name no
    earlier item has. *)
Theorem c1_unique_names (urls : list string) (net : nat → string → get_result)
    (write_ok : bool) (fs : gmap string archive) (task_id : string) :
  ∃ st,
    download_worker urls net write_ok fs task_id = Some st
    ∧ let names := name <$> item_list (cur st) in
      length names = length urls
      ∧ NoDup names
      ∧ ∀ i url,
          urls !! i = Some url →
          ∃ n, names !! i = Some n
               ∧ name_choice (take i names) (extract_filename_from_url url) n.
Proof.
  destruct (download_worker_final urls net write_ok fs task_id)
    as (st & t & names & q & Hrun & _ & Hch & _ & _ & _ & _ & Hnames).
  exists st. split; [done|]. cbn zeta. rewrite Hnames. split_and!.
  - by rewrite (chosen_length _ _ _ Hch), length_fmap.
  - apply (chosen_NoDup [] _ _ Hch). constructor.
  - intros i url Hurl.
    apply (chosen_lookup [] _ _ i (extract_filename_from_url url) Hch).
    by rewrite list_lookup_fmap, Hurl.
Qed.

(** *** C2: failure isolation *)

Lemma grows_not_done (a b : list nat) (q : list snapshot) :
  grows a q b → Forall (λ s, done s = false) q.
Proof. induction 1; constructor; auto. Qed.

Lemma puts_replay_new (t : list action) (fs : gmap string archive) :
  puts t (new_world fs) = queue (replay t (new_world fs)).
Proof. by rewrite queue_replay. Qed.

Lemma puts_closing (write_ok : bool) (task_id : string) (w : world) :
  puts (closing_actions write_ok task_id) w
  = if write_ok then [Snapshot (items w) true] else [].
Proof. unfold closing_actions. by destruct write_ok. Qed.

Lemma emitted_closing (write_ok : bool) (task_id : string) (w : world) :
  wf w →
  emitted (closing_actions write_ok task_id) w
  = if write_ok then [(heap w, true)] else [].
Proof.
  intros Hw. unfold closing_actions. destruct write_ok; [|done].
  cbn [emitted app]. f_equal.
  by rewrite (view_wf (run_action _ w) true) by (by apply wf_run).
Qed.

Lemma payload_of_failed (res : get_result) :
  is_Some (failure_of res) → payload_of res = None.
Proof.
  destruct res as [msg|r]; [done|]. unfold payload_of. by intros [m ->].
Qed.

Lemma payload_of_ok (res : get_result) (b : bytes) :
  payload_of res = Some b ↔
  ∃ r, res = GetReturns r ∧ failure_of res = None ∧ b = concat (chunks_read r).
Proof.
  destruct res as [msg|r]; unfold payload_of.
  - split; [done|]. by intros (r & ? & _).
  - destruct (failure_of (GetReturns r)) eqn:E; split; try done.
    + by intros (r' & _ & ? & _).
    + intros [= <-]. by exists r.
    + by intros (r' & [= <-] & _ & ->).
Qed.

Lemma final_archive_all_failed (names : list string) (results : list get_result) :
  Forall (λ res, is_Some (failure_of res)) results →
  final_archive names results = [].
Proof.
  intros H. revert names. induction H as [|res results [msg Hres] _ IH];
    intros [|n names]; try done.
  unfold final_archive in *. simpl. rewrite IH.
  unfold member_of. by rewrite payload_of_failed.
Qed.

(** C2. For every task whose archive can be written: the run ends; every
    URL has its item; the item of a URL whose fetch raised an exception
    with message [reason] ends with status [失败: reason] and progress
    100, and the item of every other URL ends with status [完成] and
    progress 100, whatever happened to the URLs before it; the last
    effect on the queue is the only snapshot with [done = true], and it
    shows the final items; the archive file has been written, and it is
    written (with no member) also when every fetch fails. *)
Theorem c2_failure_isolation (urls : list string)
    (net : nat → string → get_result) (fs : gmap string archive)
    (task_id : string) :
  ∃ st,
    download_worker urls net true fs task_id = Some st
    ∧ length (item_list (cur st)) = length urls
    ∧ (∀ i url,
         urls !! i = Some url →
         ∃ it, item_list (cur st) !! i = Some it
               ∧ progress it = 100
               ∧ status it = match failure_of (net (S i) url) with
                             | Some reason => "失败: " +:+ reason
                             | None => "完成"
                             end)
    ∧ (∃ q, puts (trace st) (new_world fs) = q ++ [Snapshot (items (cur st)) true]
            ∧ Forall (λ s, done s = false) q)
    ∧ last (emitted (trace st) (new_world fs)) = Some (item_list (cur st), true)
    ∧ files (cur st) !! OsPath.join TMP_DIR (task_id +:+ ".zip") = Some (zf (cur st))
    ∧ ((∀ i url, urls !! i = Some url → is_Some (failure_of (net (S i) url))) →
       zf (cur st) = []).
Proof.
  destruct (download_worker_final urls net true fs task_id)
    as (st & t & names & q & Hrun & Htr & Hch & Hw & Hg & Hcur & Hitems & Hnames).
  exists st. split; [done|].
  assert (length names = length urls) as Hlen
    by (by rewrite (chosen_length _ _ _ Hch), length_fmap).
  rewrite Hitems, Htr, Hcur. cbn [items files zf]. split_and!.
  - by rewrite <-(length_fmap name), final_items_names
      by (by rewrite answers_length).
  - intros i url Hurl.
    destruct (lookup_lt_is_Some_2 names i) as [n Hn].
    { rewrite Hlen. by eapply lookup_lt_Some. }
    eexists. split.
    + apply final_items_lookup; [done|]. by rewrite answers_lookup, Hurl.
    + done.
  - exists q. split; [|by eapply grows_not_done].
    rewrite puts_app, puts_closing, (puts_replay_new t), Hw. done.
  - rewrite emitted_app, emitted_closing by (by apply wf_replay).
    rewrite last_snoc, Hw. done.
  - by rewrite lookup_insert_eq.
  - intros Hall. apply final_archive_all_failed, Forall_lookup.
    intros i res. rewrite answers_lookup.
    destruct (urls !! i) as [url|] eqn:Hurl; [|done].
    intros [= <-]. by eapply Hall.
Qed.

(** *** C4: the archive *)

Lemma final_archive_elem (names : list string) (results : list get_result)
    (n : string) (b : bytes) :
  (n, b) ∈ final_archive names results ↔
  ∃ i res, names !! i = Some n ∧ results !! i = Some res ∧ payload_of res = Some b.
Proof.
  unfold final_archive. revert results.
  induction names as [|n' names IH]; intros [|res' results]; simpl.
  1-3: split; [by intros ?%elem_of_nil | by intros ([|?] & ? & ? & ? & ?)].
  rewrite elem_of_app, IH. unfold member_of. split.
  - intros [H|(i & res & ? & ? & ?)].
    + destruct (payload_of res') as [b'|] eqn:E; [|by apply elem_of_nil in H].
      apply list_elem_of_singleton in H as [= -> ->]. by exists 0%nat, res'.
    + by exists (S i), res.
  - intros ([|i] & res & Hn & Hr & Hp); simpl in *.
    + left. injection Hn as ->. injection Hr as ->. rewrite Hp.
      by apply list_elem_of_singleton.
    + right. by exists i, res.
Qed.

Lemma final_archive_names (names : list string) (results : list get_result) :
  (final_archive names results).*1 `sublist_of` names.
Proof.
  unfold final_archive. revert results.
  induction names as [|n names IH]; intros [|res results]; simpl;
    try apply sublist_nil_l.
  rewrite fmap_app. unfold member_of.
  destruct (payload_of res); simpl.
  - by apply sublist_skip.
  - by apply sublist_cons.
Qed.

(** C4. For every task whose archive can be written, the archive file
    holds, in submission order, one member for each URL whose fetch
    raised no exception, stored under the name of that URL's item with
    all the bytes read, and nothing else; member names are pairwise
    distinct. *)
Theorem c4_archive_contents (urls : list string)
    (net : nat → string → get_result) (fs : gmap string archive)
    (task_id : string) :
  ∃ st,
    download_worker urls net true fs task_id = Some st
    ∧ let names := name <$> item_list (cur st) in
      let zip := final_archive names (answers net 1 urls) in
      files (cur st) !! OsPath.join TMP_DIR (task_id +:+ ".zip") = Some zip
      ∧ NoDup zip.*1
      ∧ ∀ n b,
          (n, b) ∈ zip ↔
          ∃ i url r,
            urls !! i = Some url
            ∧ names !! i = Some n
            ∧ net (S i) url = GetReturns r
            ∧ failure_of (GetReturns r) = None
            ∧ b = concat (chunks_read r).
Proof.
  destruct (download_worker_final urls net true fs task_id)
    as (st & t & names & q & Hrun & Htr & Hch & Hw & Hg & Hcur & Hitems & Hnames).
  exists st. split; [done|]. cbn zeta. rewrite Hnames, Hcur. cbn [files].
  split_and!.
  - by rewrite lookup_insert_eq.
  - eapply sublist_NoDup; [|apply final_archive_names].
    apply (chosen_NoDup [] _ _ Hch). constructor.
  - intros n b. rewrite final_archive_elem. split.
    + intros (i & res & Hn & Hres & Hp). rewrite answers_lookup in Hres.
      destruct (urls !! i) as [url|] eqn:Hurl; [|done]. injection Hres as <-.
      apply payload_of_ok in Hp as (r & Hr & Hok & ->).
      exists i, url, r. rewrite <-Hr. done.
    + intros (i & url & r & Hurl & Hn & Hr & Hok & ->).
      exists i, (GetReturns r). split_and!; [done| |by apply payload_of_ok; exists r].
      by rewrite answers_lookup, Hurl, <-Hr.
Qed.

(** *** C3: order of delivery *)

Lemma replay_snoc (t : list action) (a : action) (w : world) :
  replay (t ++ [a]) w = run_action a (replay t w).
Proof. by rewrite replay_app. Qed.

Lemma run_agree (a : action) (w w' : world) :
  heap w = heap w' → items w = items w' →
  heap (run_action a w) = heap (run_action a w')
  ∧ items (run_action a w) = items (run_action a w').
Proof. intros Hh Hi. destruct a; simpl; by rewrite ?Hh, ?Hi. Qed.

Lemma queue_run (a : action) (w : world) :
  queue (run_action a w)
  = queue w ++ match a with APut d => [Snapshot (items w) d] | _ => [] end.
Proof. destruct a; simpl; by rewrite ?app_nil_r. Qed.

Lemma puts_snoc (t : list action) (a : action) (w : world) :
  puts (t ++ [a]) w
  = puts t w
    ++ match a with APut d => [Snapshot (items (replay t w)) d] | _ => [] end.
Proof. rewrite puts_app. simpl. by rewrite app_nil_r. Qed.

Lemma view_agree (w w' : world) (x : snapshot) :
  heap w = heap w' → view w x = view w' x.
Proof. intros H. unfold view. by rewrite H. Qed.

Lemma sys_init_inv (fs : gmap string archive) (T : list action) :
  sys_inv T (new_world fs) (sys_init fs T).
Proof.
  exists []. by split_and!.
Qed.

Lemma sys_step_inv (T : list action) (w0 : world) (who : thread) (s : sys) :
  sys_inv T w0 s → sys_inv T w0 (sys_step who s).
Proof.
  intros Hinv.
  pose proof Hinv as (performed & HT & Hh & Hi & Hq & Hlen & Hstop & Hev).
  destruct who; simpl.
  - destruct (pending s) as [|a t] eqn:Hp; [done|].
    exists (performed ++ [a]). cbn [delivered shared pending events listening].
    destruct (run_agree a _ _ Hh Hi) as [Hh' Hi'].
    rewrite replay_snoc, puts_snoc, queue_run, <-Hi.
    split_and!; try done.
    + by rewrite <-app_assoc.
    + by rewrite app_assoc, Hq.
    + intros k e (x & t1 & t2 & Hx & -> & Hk & ->)%Hev.
      exists x, t1, (t2 ++ [a]). by rewrite app_assoc.
  - destruct (listening s) eqn:Hl; [|done].
    unfold event_stream. destruct (queue (shared s)) as [|x q'] eqn:Hqs.
    + exists performed. cbn [delivered shared pending events listening].
      rewrite !app_nil_r, Hqs. done.
    + exists performed. cbn [delivered shared pending events listening].
      cbn [set_queue heap items queue].
      split_and!; try done.
      * by rewrite <-app_assoc.
      * rewrite !length_app. simpl. lia.
      * intros Hd%negb_false_iff. exists x. by rewrite last_snoc.
      * intros k e Hk. apply lookup_app_Some in Hk as [Hk|[Hge Hk]].
        { apply Hev in Hk as (x' & t1 & t2 & Hx' & ? & ? & ?).
          exists x', t1, t2. split_and!; try done.
          by apply lookup_app_l_Some. }
        destruct (k - length (events s))%nat as [|?] eqn:Hk0; [|done].
        injection Hk as <-. assert (k = length (delivered s)) as -> by lia.
        exists x, performed, []. split_and!.
        -- by rewrite lookup_app_r, Nat.sub_diag.
        -- by rewrite app_nil_r.
        -- rewrite <-Hq, length_app. simpl. lia.
        -- by apply view_agree.
Qed.

Lemma sys_run_inv (T : list action) (w0 : world) (sched : list thread) (s : sys) :
  sys_inv T w0 s → sys_inv T w0 (sys_run sched s).
Proof.
  revert s. induction sched as [|who sched IH]; intros s Hs; [done|].
  apply (IH (sys_step who s)), sys_step_inv, Hs.
Qed.

Lemma sys_inv_prefix (T : list action) (w0 : world) (s : sys) :
  sys_inv T w0 s → delivered s `prefix_of` puts T w0.
Proof.
  intros (performed & -> & _ & _ & Hq & _). rewrite puts_app, <-Hq, <-app_assoc.
  by eexists.
Qed.

(** C3. For every task and every interleaving of the worker with an
    observer of its queue: the snapshots the observer has received are
    an initial part of the snapshots the worker puts, in the order it
    puts them; the worker puts nothing after a snapshot with
    [done = true]; hence a snapshot with [done = true] that is received
    is the last one received, and the observer's loop has stopped exactly
    when its last snapshot has [done = true]. *)
Theorem c3_fifo_terminal_last (urls : list string)
    (net : nat → string → get_result) (write_ok : bool)
    (fs : gmap string archive) (task_id : string) :
  ∃ st,
    download_worker urls net write_ok fs task_id = Some st
    ∧ let all := puts (trace st) (new_world fs) in
      (∀ k x, all !! k = Some x → done x = true → S k = length all)
      ∧ ∀ sched,
          let s := sys_run sched (sys_init fs (trace st)) in
          delivered s `prefix_of` all
          ∧ length (events s) = length (delivered s)
          ∧ (∀ k x, delivered s !! k = Some x → done x = true →
                    S k = length (delivered s) ∧ delivered s = all)
          ∧ (listening s = false →
             ∃ x, last (delivered s) = Some x ∧ done x = true).
Proof.
  destruct (download_worker_final urls net write_ok fs task_id)
    as (st & t & names & q & Hrun & Htr & Hch & Hw & Hg & Hcur & Hitems & Hnames).
  exists st. split; [done|]. cbn zeta.
  assert (∀ k x, puts (trace st) (new_world fs) !! k = Some x →
                 done x = true → S k = length (puts (trace st) (new_world fs)))
    as Hlast.
  { rewrite Htr, puts_app, puts_closing, (puts_replay_new t), Hw. cbn [queue items].
    intros k x Hk Hd. apply lookup_app_Some in Hk as [Hk|[Hge Hk]].
    - apply grows_not_done in Hg.
      rewrite Forall_lookup in Hg. specialize (Hg _ _ Hk). congruence.
    - destruct write_ok; [|done]. rewrite length_app. simpl.
      apply lookup_lt_Some in Hk. simpl in Hk. lia. }
  split; [done|]. intros sched.
  pose proof (sys_run_inv (trace st) (new_world fs) sched _
                (sys_init_inv fs (trace st))) as Hinv.
  pose proof (sys_inv_prefix _ _ _ Hinv) as Hpre.
  destruct Hinv as (performed & _ & _ & _ & _ & Hlen & Hstop & _).
  split_and!; [done..| |done].
  intros k x Hk Hd.
  pose proof (prefix_lookup_Some _ _ _ _ Hk Hpre) as Hk'.
  specialize (Hlast _ _ Hk' Hd).
  pose proof (lookup_lt_Some _ _ _ Hk) as Hlt.
  pose proof (prefix_length _ _ Hpre) as Hle.
  split; [lia|].
  destruct Hpre as [rest Hrest]. rewrite Hrest, length_app in Hlast.
  destruct rest; [by rewrite app_nil_r in Hrest|]. simpl in Hlast. lia.
Qed.

(** *** C10: the snapshots grow *)

Lemma fmap_name_alter (f : item → item) (i : nat) (h : list item) :
  (∀ x, name (f x) = name x) → name <$> alter f i h = name <$> h.
Proof.
  intros Hf. revert i. induction h as [|x h IH]; intros [|i]; simpl; try done.
  - by rewrite Hf.
  - f_equal. apply IH.
Qed.

Lemma names_run (a : action) (w : world) :
  (name <$> heap w) `prefix_of` (name <$> heap (run_action a w)).
Proof.
  destruct a; simpl; try done.
  - rewrite fmap_app. by apply prefix_app_r.
  - by rewrite fmap_name_alter.
  - by rewrite fmap_name_alter.
Qed.

Lemma names_replay (t : list action) (w : world) :
  (name <$> heap w) `prefix_of` (name <$> heap (replay t w)).
Proof.
  revert w. induction t as [|a t IH]; intros w; [done|].
  rewrite replay_cons. etrans; [apply (names_run a)|apply IH].
Qed.

Lemma emitted_done (t : list action) (w : world) :
  snd <$> emitted t w = done <$> puts t w.
Proof.
  revert w. induction t as [|a t IH]; intros w; simpl; [done|].
  rewrite !fmap_app, IH. by destruct a.
Qed.

Lemma emitted_names_lower (t : list action) (w : world) (v : list item * bool) :
  wf w → v ∈ emitted t w → (name <$> heap w) `prefix_of` (name <$> v.1).
Proof.
  revert w. induction t as [|a t IH]; intros w Hwf; simpl.
  { by intros ?%elem_of_nil. }
  intros [Hv|Hv]%elem_of_app.
  - destruct a; try by apply elem_of_nil in Hv.
    apply list_elem_of_singleton in Hv as ->. by rewrite view_wf.
  - etrans; [apply (names_run a)|]. apply IH; [by apply wf_run|done].
Qed.

Lemma emitted_names_mono (t : list action) (w : world) (k k' : nat)
    (v v' : list item * bool) :
  wf w → (k ≤ k')%nat →
  emitted t w !! k = Some v → emitted t w !! k' = Some v' →
  (name <$> v.1) `prefix_of` (name <$> v'.1).
Proof.
  revert w k k'. induction t as [|a t IH]; intros w k k' Hwf Hle; simpl; [done|].
  assert (wf (run_action a w)) as Hwf' by (by apply wf_run).
  destruct a; simpl; try by apply IH.
  rewrite view_wf by done.
  destruct k as [|k]; simpl.
  - intros [= <-]. destruct k' as [|k']; simpl; [by intros [= <-]|].
    intros Hv'%list_elem_of_lookup_2.
    by apply (emitted_names_lower _ _ _ Hwf') in Hv'.
  - destruct k' as [|k']; [lia|]. simpl. apply IH; [done|lia].
Qed.

Lemma grows_steps (a b : list nat) (q tl : list snapshot) :
  grows a q b →
  (∀ s, head tl = Some s → snap_items s = b) → (length tl ≤ 1)%nat →
  (∀ s, (q ++ tl) !! 0%nat = Some s → ext1 a (snap_items s))
  ∧ ∀ k s s', (q ++ tl) !! k = Some s → (q ++ tl) !! S k = Some s' →
              ext1 (snap_items s) (snap_items s').
Proof.
  induction 1 as [a|a s q b Hd He Hg IHg]; intros Htl Hlen; simpl.
  - split.
    + intros s Hs. left. apply Htl. by destruct tl.
    + intros k s s' _ Hs'. apply lookup_lt_Some in Hs'. lia.
  - destruct (IHg Htl Hlen) as [IH0 IH].
    split; [by intros ? [= <-]|].
    intros [|k] s1 s2; simpl.
    + intros [= <-]. apply IH0.
    + apply IH.
Qed.

(** C10. For every task: the first snapshot holds at most one item and
    each later snapshot holds the items of the one before it, followed by
    at most one new item; the names shown by a snapshot are an initial
    part of the names shown by every later snapshot, and the names held in
    memory are at every moment an initial part of the final ones; a
    snapshot with [done = true] shows the final items, one per URL in
    submission order, each named after its URL; and such a snapshot ends
    the run whenever the archive could be written. *)
Theorem c10_snapshots_grow (urls : list string)
    (net : nat → string → get_result) (write_ok : bool)
    (fs : gmap string archive) (task_id : string) :
  ∃ st,
    download_worker urls net write_ok fs task_id = Some st
    ∧ let all := puts (trace st) (new_world fs) in
      let seen := emitted (trace st) (new_world fs) in
      (∀ s, all !! 0%nat = Some s → ext1 [] (snap_items s))
      ∧ (∀ k s s', all !! k = Some s → all !! S k = Some s' →
                   ext1 (snap_items s) (snap_items s'))
      ∧ (∀ k k' v v', (k ≤ k')%nat → seen !! k = Some v → seen !! k' = Some v' →
                      (name <$> v.1) `prefix_of` (name <$> v'.1))
      ∧ (∀ t1 t2, trace st = t1 ++ t2 →
                  (name <$> heap (replay t1 (new_world fs)))
                    `prefix_of` (name <$> heap (cur st)))
      ∧ (∀ v, v ∈ seen → v.2 = true →
              v.1 = item_list (cur st)
              ∧ length v.1 = length urls
              ∧ ∀ i url,
                  urls !! i = Some url →
                  ∃ it, v.1 !! i = Some it
                        ∧ name_choice (take i (name <$> v.1))
                            (extract_filename_from_url url) (name it))
      ∧ (write_ok = true → ∃ v, last seen = Some v ∧ v.2 = true).
Proof.
  destruct (download_worker_final urls net write_ok fs task_id)
    as (st & t & names & q & Hrun & Htr & Hch & Hw & Hg & Hcur & Hitems & Hnames).
  exists st. split; [done|]. cbn zeta.
  assert (length names = length urls) as Hlen
    by (by rewrite (chosen_length _ _ _ Hch), length_fmap).
  assert (wf (replay t (new_world fs))) as Hwft by (by apply wf_replay).
  assert (puts (trace st) (new_world fs)
          = q ++ if write_ok then [Snapshot (seq 0 (length urls)) true] else [])
    as Hputs.
  { by rewrite Htr, puts_app, puts_closing, (puts_replay_new t), Hw. }
  assert (emitted (trace st) (new_world fs)
          = emitted t (new_world fs)
            ++ if write_ok then [(item_list (cur st), true)] else []) as Hseen.
  { rewrite Htr, emitted_app, emitted_closing by done.
    by rewrite Hitems, Hw. }
  assert (Forall (λ v, v.2 = false) (emitted t (new_world fs))) as Hnd.
  { apply (Forall_fmap snd (λ b, b = false)).
    rewrite emitted_done, (puts_replay_new t), Hw. cbn [queue].
    apply Forall_fmap. by eapply grows_not_done. }
  destruct (grows_steps [] (seq 0 (length urls)) q
              (if write_ok then [Snapshot (seq 0 (length urls)) true] else []) Hg)
    as [Hfirst Hsteps].
  { destruct write_ok; [by intros ? [= <-]|done]. }
  { destruct write_ok; simpl; lia. }
  rewrite Hputs. split_and!; [done|done| | | |].
  - intros k k' v v' Hle. by apply emitted_names_mono.
  - intros t1 t2 Ht.
    assert (cur st = replay (trace st) (new_world fs)) as ->.
    { destruct (download_worker_spec urls net write_ok fs task_id)
        as (t' & ? & ? & Hrun' & _). rewrite Hrun in Hrun'.
      by injection Hrun' as ->. }
    rewrite Ht, replay_app. apply names_replay.
  - intros v Hv Hd. rewrite Hseen in Hv. apply elem_of_app in Hv as [Hv|Hv].
    { rewrite Forall_forall in Hnd. specialize (Hnd _ Hv). congruence. }
    destruct write_ok; [|by apply elem_of_nil in Hv].
    apply list_elem_of_singleton in Hv as ->. cbn [fst].
    rewrite Hnames, Hitems. split_and!; [done| |].
    + by rewrite <-(length_fmap name), final_items_names
        by (by rewrite answers_length).
    + intros i url Hurl.
      destruct (chosen_lookup [] _ _ i (extract_filename_from_url url) Hch)
        as (n & Hn & Hc); [by rewrite list_lookup_fmap, Hurl|].
      exists (Item n (final_status (net (S i) url)) 100). split; [|done].
      apply final_items_lookup; [done|]. by rewrite answers_lookup, Hurl.
  - intros ->. rewrite Hseen, last_snoc. by eexists.
Qed.

(** *** C7: the progress reported for a chunk *)

Lemma bytes_so_far_nonneg (d : Z) (chunks : list bytes) :
  0 ≤ d → Forall (λ b, 0 ≤ b) (bytes_so_far d chunks).
Proof.
  revert d. induction chunks as [|c chunks IH]; intros d Hd; simpl;
    constructor; [lia|]. apply IH. lia.
Qed.

Lemma percent_floor (b total : Z) :
  0 ≤ b → 0 ≤ total →
  percent b total = if total =? 0 then 100 else b * 100 / total.
Proof.
  intros Hb Ht. unfold percent. destruct (Z.eqb_spec total 0); [done|].
  apply Z.quot_div_nonneg; lia.
Qed.

Lemma emitted_chunk_actions (it pos : nat) (total : Z) (chunks : list bytes) :
  ∀ (d : Z) (w : world) (k : nat) (b : Z),
    items w !! pos = Some it → (it < length (heap w))%nat →
    bytes_so_far d (List.filter nonempty chunks) !! k = Some b →
    ∃ v x,
      emitted (chunk_actions it total d chunks) w !! k = Some v
      ∧ v.2 = false ∧ v.1 !! pos = Some x ∧ progress x = percent b total.
Proof.
  induction chunks as [|c chunks IH]; intros d w k b Hpos Hit; simpl; [done|].
  destruct (nonempty c) eqn:Hc; [|by apply IH].
  cbn [bytes_so_far emitted app]. destruct k as [|k]; simpl.
  - intros [= <-]. eexists _, _. split; [done|]. split; [done|].
    unfold view. cbn [fst snap_items heap].
    rewrite list_lookup_fmap, Hpos. simpl. split; [done|].
    by rewrite list_lookup_total_alter_eq.
  - apply IH; [done|]. simpl. by rewrite length_alter.
Qed.

(** C7. While the body of a response is read, the snapshot put for the
    [k]-th non-empty chunk shows, for the item being fetched, the progress
    [floor(bytes_so_far * 100 / total)] when the content length [total] is
    positive, and 100 when the header is missing or zero. *)
Theorem c7_chunk_progress (st : wstate) (it pos : nat) (unique_name : string)
    (r : response) (total : Z) :
  items (cur st) !! pos = Some it →
  (it < length (heap (cur st)))%nat →
  http_error r = None →
  total_of (header_length r) = inl total →
  0 ≤ total →
  ∃ t,
    trace (fetch it unique_name (GetReturns r) st) = trace st ++ t
    ∧ ∀ k b,
        bytes_so_far 0 (List.filter nonempty (chunks_read r)) !! k = Some b →
        ∃ v x,
          emitted t (cur st) !! k = Some v
          ∧ v.2 = false
          ∧ v.1 !! pos = Some x
          ∧ progress x = if total =? 0 then 100 else b * 100 / total.
Proof.
  intros Hpos Hit Hhttp Htotal Hnn.
  rewrite fetch_extend. eexists. split; [done|].
  intros k b Hb. unfold fetch_actions. rewrite Hhttp, Htotal.
  destruct (emitted_chunk_actions it pos total (chunks_read r) 0 (cur st) k b)
    as (v & x & Hv & Hd & Hx & Hp); [done..|].
  exists v, x. split_and!; [|done..|].
  - rewrite emitted_app. by apply lookup_app_l_Some.
  - rewrite Hp. apply percent_floor; [|done].
    pose proof (bytes_so_far_nonneg 0 (List.filter nonempty (chunks_read r))) as Hall.
    rewrite Forall_lookup in Hall. eapply Hall; [lia|done].
Qed.

(** *** C9: empty submissions *)

Lemma parse_urls_empty_iff (raw : string) :
  parse_urls raw = [] ↔
  Forall (λ line, PyStr.strip line = "") (PyStr.splitlines raw).
Proof.
  unfold parse_urls. generalize (PyStr.splitlines raw). intros lines.
  induction lines as [|l lines IH]; simpl; [by split|].
  destruct (PyStr.strip l) as [|c r] eqn:E; simpl.
  - rewrite IH. split; [by constructor|]. by intros [_ ?]%Forall_cons.
  - split; [done|]. intros [? _]%Forall_cons. congruence.
Qed.

(** C9. When no URL is left after the submitted text is split into lines
    and the lines are stripped, that is when every line is blank, [start]
    answers 400 with no task identifier and the server state is
    unchanged: no identifier is drawn, no queue is registered, no thread
    is started. *)
Theorem c9_empty_submission (raw : string) (srv : server) :
  parse_urls raw = [] →
  Forall (λ line, PyStr.strip line = "") (PyStr.splitlines raw)
  ∧ start raw srv = (Reply400 "no urls provided", srv)
  ∧ (∀ task_id, (start raw srv).1 ≠ Reply200 task_id)
  ∧ uuid_calls (start raw srv).2 = uuid_calls srv
  ∧ progress_queues (start raw srv).2 = progress_queues srv
  ∧ threads (start raw srv).2 = threads srv.
Proof.
  intros H. split; [by apply parse_urls_empty_iff|].
  unfold start. rewrite H. by split_and!.
Qed.

(** A submission with at least one URL, for comparison: an identifier is
    drawn, its queue is registered empty and a worker is started on the
    parsed URLs. *)
Lemma start_accepts (raw : string) (srv : server) :
  parse_urls raw ≠ [] →
  let task_id := uuid4 (uuid_calls srv) in
  start raw srv
  = (Reply200 task_id,
     Server (<[task_id := []]> (progress_queues srv))
            (threads srv ++ [(parse_urls raw, task_id)])
            (S (uuid_calls srv))).
Proof. intros H. unfold start. by destruct (parse_urls raw). Qed.

(** *** C6: what a snapshot shares with the worker *)

Lemma view_names_later (w w' : world) (d : bool) :
  wf w → (name <$> heap w) `prefix_of` (name <$> heap w') →
  name <$> (view w' (Snapshot (items w) d)).1 = name <$> heap w.
Proof.
  intros Hwf Hpre. unfold view. cbn [fst snap_items]. rewrite Hwf.
  apply list_eq. intros i. rewrite !list_lookup_fmap.
  destruct (decide (i < length (heap w))%nat) as [Hlt|Hge].
  - rewrite lookup_seq_lt by done. simpl.
    destruct (lookup_lt_is_Some_2 (heap w) i Hlt) as [y Hy]. rewrite Hy. simpl.
    assert ((name <$> heap w') !! i = Some (name y)) as Hy'.
    { eapply prefix_lookup_Some; [|done]. by rewrite list_lookup_fmap, Hy. }
    rewrite list_lookup_fmap in Hy'.
    destruct (heap w' !! i) as [y'|] eqn:E; [|done].
    rewrite (list_lookup_total_correct _ _ _ E). simpl in Hy'. congruence.
  - rewrite lookup_seq_ge by lia. simpl.
    by rewrite (proj2 (lookup_ge_None (heap w) i)) by lia.
Qed.

Lemma emitted_vs_now (t : list action) :
  ∀ (w : world) (k : nat) (x : snapshot),
    wf w → puts t w !! k = Some x →
    ∃ v, emitted t w !! k = Some v
         ∧ v.2 = done x
         ∧ name <$> (view (replay t w) x).1 = name <$> v.1.
Proof.
  induction t as [|a t IH]; intros w k x Hwf; simpl; [done|].
  assert (wf (run_action a w)) as Hwf' by (by apply wf_run).
  destruct a; simpl; try by apply IH.
  destruct k as [|k]; simpl; [|by apply IH].
  intros [= <-]. eexists. split; [done|]. rewrite view_wf by done.
  split; [done|]. cbn [fst]. apply view_names_later; [done|].
  apply (names_replay (APut d :: t)).
Qed.

(** C6, as the code has it.  For every task and every interleaving, the
    event an observer yields for the [k]-th snapshot shows the snapshot's
    own list of items: as many items, with the same names in the same
    order, and the same [done] flag as when it was put; the status and
    progress it shows are those the items have at a moment of the run
    after the snapshot was put, namely when the observer reads it. *)
Theorem c6_snapshot_list_copied (urls : list string)
    (net : nat → string → get_result) (write_ok : bool)
    (fs : gmap string archive) (task_id : string) :
  ∃ st,
    download_worker urls net write_ok fs task_id = Some st
    ∧ ∀ sched k e,
        events (sys_run sched (sys_init fs (trace st))) !! k = Some e →
        ∃ x v t1 t2,
          puts (trace st) (new_world fs) !! k = Some x
          ∧ emitted (trace st) (new_world fs) !! k = Some v
          ∧ e.2 = v.2
          ∧ name <$> e.1 = name <$> v.1
          ∧ trace st = t1 ++ t2
          ∧ (k < length (puts t1 (new_world fs)))%nat
          ∧ e = view (replay t1 (new_world fs)) x.
Proof.
  destruct (download_worker_final urls net write_ok fs task_id)
    as (st & _ & _ & _ & Hrun & _).
  exists st. split; [done|]. intros sched k e He.
  pose proof (sys_run_inv (trace st) (new_world fs) sched _
                (sys_init_inv fs (trace st))) as Hinv.
  remember (sys_run sched (sys_init fs (trace st))) as s eqn:Hs. clear Hs.
  pose proof (sys_inv_prefix _ _ _ Hinv) as Hpre.
  destruct Hinv as (performed & HT & _ & _ & _ & _ & _ & Hev).
  destruct (Hev _ _ He) as (x & t1 & t2 & Hx & -> & Hk & ->).
  pose proof (prefix_lookup_Some _ _ _ _ Hx Hpre) as Hx'.
  rewrite HT, <-app_assoc in Hx'. rewrite puts_app in Hx'.
  rewrite lookup_app_l in Hx' by done.
  destruct (emitted_vs_now t1 (new_world fs) k x) as (v & Hv & Hd & Hn);
    [done..|].
  exists x, v, t1, (t2 ++ pending s).
  rewrite HT, <-app_assoc, puts_app, emitted_app.
  split_and!; try done.
  - by apply lookup_app_l_Some.
  - by apply lookup_app_l_Some.
Qed.

(** *** C5: when the progress is well behaved *)

Lemma le_heap_refl (h : list item) : le_heap h h.
Proof. intros i x Hx. by exists x. Qed.

Lemma le_heap_trans (h1 h2 h3 : list item) :
  le_heap h1 h2 → le_heap h2 h3 → le_heap h1 h3.
Proof.
  intros H12 H23 i x Hx. destruct (H12 _ _ Hx) as (y & Hy & ?).
  destruct (H23 _ _ Hy) as (z & Hz & ?). exists z. split; [done|lia].
Qed.

Lemma le_heap_app (h k : list item) : le_heap h (h ++ k).
Proof. intros i x Hx. exists x. split; [by apply lookup_app_l_Some|done]. Qed.

Lemma le_heap_last (h : list item) (x y : item) :
  progress x ≤ progress y → le_heap (h ++ [x]) (h ++ [y]).
Proof.
  intros Hxy i z Hz. apply lookup_app_Some in Hz as [Hz|[Hge Hz]].
  - exists z. split; [by apply lookup_app_l_Some|done].
  - destruct (i - length h)%nat as [|?] eqn:E; [|done]. injection Hz as <-.
    exists y. split; [|done]. by rewrite lookup_app_r, E.
Qed.

Lemma climbs_start (h0 h0' h1 : list item) (E : list (list item * bool)) :
  le_heap h0' h0 → climbs h0 E h1 → climbs h0' E h1.
Proof.
  destruct E as [|v E]; simpl.
  - apply le_heap_trans.
  - intros H (? & ? & ?). split_and!; [|done..]. by eapply le_heap_trans.
Qed.

Lemma climbs_app (h0 h1 h2 : list item) (E1 E2 : list (list item * bool)) :
  climbs h0 E1 h1 → climbs h1 E2 h2 → climbs h0 (E1 ++ E2) h2.
Proof.
  revert h0. induction E1 as [|v E1 IH]; intros h0; simpl.
  - intros. by eapply climbs_start.
  - intros (? & ? & ?) ?. split_and!; [done..|]. by apply IH.
Qed.

Lemma climbs_ok (h0 h1 : list item) (E : list (list item * bool)) (v : list item * bool) :
  climbs h0 E h1 → v ∈ E → Forall item_ok v.1.
Proof.
  revert h0. induction E as [|v' E IH]; intros h0; simpl.
  { by intros _ ?%elem_of_nil. }
  intros (_ & ? & ?) [->|?]%elem_of_cons; [done|]. by eapply IH.
Qed.

Lemma climbs_first (h0 h1 : list item) (E : list (list item * bool))
    (k : nat) (v : list item * bool) :
  climbs h0 E h1 → E !! k = Some v → le_heap h0 v.1.
Proof.
  revert h0 k. induction E as [|u E IH]; intros h0 k; simpl; [done|].
  intros (Hu & _ & Hc). destruct k as [|k]; simpl.
  - by intros [= <-].
  - intros Hv. eapply le_heap_trans; [done|]. by eapply IH.
Qed.

Lemma climbs_mono (h0 h1 : list item) (E : list (list item * bool))
    (k k' : nat) (v v' : list item * bool) :
  climbs h0 E h1 → (k ≤ k')%nat → E !! k = Some v → E !! k' = Some v' →
  le_heap v.1 v'.1.
Proof.
  revert h0 k k'. induction E as [|u E IH]; intros h0 k k'; simpl; [done|].
  intros (_ & _ & Hc) Hle. destruct k as [|k]; simpl.
  - intros [= <-]. destruct k' as [|k']; simpl.
    + intros [= <-]. apply le_heap_refl.
    + by apply (climbs_first _ _ _ _ _ Hc).
  - destruct k' as [|k']; [lia|]. simpl. by apply (IH _ _ _ Hc); lia.
Qed.

Lemma percent_range (d total : Z) :
  0 ≤ d → 0 ≤ total → (0 < total → d ≤ total) → 0 ≤ percent d total ≤ 100.
Proof.
  intros Hd Ht Hb. rewrite percent_floor by done.
  destruct (Z.eqb_spec total 0); [lia|]. split.
  - apply Z.div_pos; lia.
  - apply Z.div_le_upper_bound; lia.
Qed.

Lemma percent_mono (d d' total : Z) :
  0 ≤ d ≤ d' → 0 ≤ total → percent d total ≤ percent d' total.
Proof.
  intros Hd Ht. rewrite !percent_floor by lia.
  destruct (Z.eqb_spec total 0); [lia|]. apply Z.div_le_mono; lia.
Qed.

Lemma item_ok_fetching (n : string) (p : Z) :
  0 ≤ p ≤ 100 → item_ok (Item n "下载中" p).
Proof. intros Hp. split; [done|]. simpl. by intros []. Qed.

Lemma item_ok_final (n s : string) : item_ok (Item n s 100).
Proof. split; simpl; [lia|done]. Qed.

Lemma alter_last (f : item → item) (h : list item) (x : item) :
  alter f (length h) (h ++ [x]) = h ++ [f x].
Proof.
  rewrite <-(Nat.add_0_r (length h)) at 1. by rewrite alter_app_r.
Qed.

Lemma chunk_climbs (H : list item) (n : string) (total : Z) (chunks : list bytes) :
  ∀ (d p : Z) (w : world),
    heap w = H ++ [Item n "下载中" p] → wf w → Forall item_ok H →
    0 ≤ p ≤ 100 → 0 ≤ d → 0 ≤ total → p ≤ percent d total →
    (0 < total → d + Z.of_nat (length (concat chunks)) ≤ total) →
    ∃ p',
      p ≤ p' ≤ 100
      ∧ heap (replay (chunk_actions (length H) total d chunks) w)
        = H ++ [Item n "下载中" p']
      ∧ wf (replay (chunk_actions (length H) total d chunks) w)
      ∧ climbs (heap w) (emitted (chunk_actions (length H) total d chunks) w)
          (H ++ [Item n "下载中" p']).
Proof.
  induction chunks as [|c chunks IH]; intros d p w Hh Hwf HH Hp Hd Ht Hpd Hb.
  { exists p. simpl. rewrite Hh. split_and!; try done; try lia. apply le_heap_refl. }
  simpl in Hb. rewrite length_app, Nat2Z.inj_add in Hb.
  cbn [chunk_actions]. destruct c as [|b c]; cbn [nonempty].
  { apply IH; try done; simpl in Hb; lia. }
  cbn zeta. cbn [app].
  set (d' := d + Z.of_nat (length (b :: c))).
  set (w1 := run_action (ASetProgress (length H) (percent d' total)) w).
  assert (heap w1 = H ++ [Item n "下载中" (percent d' total)]) as Hh1.
  { unfold w1. simpl. by rewrite Hh, alter_last. }
  assert (wf w1) as Hwf1 by (by apply wf_run).
  assert (0 ≤ percent d' total ≤ 100) as Hp1.
  { apply percent_range; [unfold d'; lia|done|]. intros ?. unfold d'. lia. }
  assert (p ≤ percent d' total) as Hpp.
  { etrans; [done|]. apply percent_mono; [unfold d'; lia|done]. }
  assert (wf (run_action (APut false) w1)) as Hwf2 by (by apply wf_run).
  assert (0 ≤ d') as Hd' by (unfold d'; lia).
  assert (0 < total → d' + Z.of_nat (length (concat chunks)) ≤ total) as Hb'.
  { intros ?. unfold d'. lia. }
  destruct (IH d' (percent d' total) (run_action (APut false) w1)
              Hh1 Hwf2 HH Hp1 Hd' Ht (Z.le_refl _) Hb')
    as (p' & Hp' & Hheap & Hwf' & Hcl).
  exists p'. rewrite !replay_cons. fold w1. split_and!; [lia|lia|done|done|].
  cbn [emitted app]. fold w1. rewrite view_wf by done. cbn [climbs fst].
  rewrite Hh, Hh1. split_and!.
  - by apply le_heap_last.
  - apply Forall_app. split; [done|]. constructor; [|done].
    by apply item_ok_fetching.
  - by rewrite <-Hh1.
Qed.

Lemma fail_climbs (H : list item) (n msg : string) (p : Z) (w : world) :
  heap w = H ++ [Item n "下载中" p] → wf w → Forall item_ok H → p ≤ 100 →
  climbs (heap w) (emitted (fail_actions (length H) msg) w)
    (H ++ [Item n ("失败: " +:+ msg) 100]).
Proof.
  intros Hh Hwf HH Hp. unfold fail_actions. cbn [emitted app].
  rewrite view_wf by (by do 2 apply wf_run). cbn [climbs fst run_action heap].
  rewrite Hh, !alter_last. cbn [set_status set_progress name status progress].
  split_and!.
  - by apply le_heap_last.
  - apply Forall_app. split; [done|]. constructor; [|done]. apply item_ok_final.
  - apply le_heap_refl.
Qed.

Lemma fetch_climbs (H : list item) (n : string) (res : get_result) (w : world) :
  heap w = H ++ [Item n "下载中" 0] → wf w → Forall item_ok H →
  length_consistent res →
  climbs (heap w) (emitted (fetch_actions (length H) n res) w)
    (H ++ [Item n (final_status res) 100]).
Proof.
  intros Hh Hwf HH Hc. unfold fetch_actions, final_status, failure_of.
  destruct res as [msg|r]; [by apply (fail_climbs H n msg 0)|].
  destruct (http_error r) as [msg|]; [by apply (fail_climbs H n msg 0)|].
  simpl in Hc.
  destruct (total_of (header_length r)) as [total|msg];
    [|by apply (fail_climbs H n msg 0)].
  destruct Hc as [Ht Hb].
  destruct (chunk_climbs H n total (chunks_read r) 0 0 w)
    as (p' & Hp' & Hheap & Hwf' & Hcl); try done; try lia.
  { apply (percent_range 0 total); lia. }
  rewrite emitted_app. eapply climbs_app; [done|].
  destruct (stream_error r) as [msg|].
  - rewrite <-Hheap. apply (fail_climbs H n msg p'); [done..|lia].
  - cbn [emitted app].
    rewrite view_wf by (by do 3 apply wf_run). cbn [climbs fst run_action heap].
    rewrite Hheap, !alter_last.
    cbn [set_status set_progress name status progress]. split_and!.
    + apply le_heap_last. simpl. lia.
    + apply Forall_app. split; [done|]. constructor; [|done]. apply item_ok_final.
    + apply le_heap_refl.
Qed.

Lemma url_climbs (n : string) (res : get_result) (w : world) :
  wf w → Forall item_ok (heap w) → length_consistent res →
  climbs (heap w) (emitted (url_actions (length (heap w)) n res) w)
    (heap w ++ [Item n (final_status res) 100]).
Proof.
  intros Hwf HH Hc. unfold url_actions. cbn [app emitted].
  set (w1 := run_action (ANew (Item n "下载中" 0)) w).
  assert (wf w1) as Hwf1 by (by apply wf_run).
  rewrite view_wf by done. cbn [climbs fst]. split_and!.
  - apply le_heap_app.
  - apply Forall_app. split; [done|]. constructor; [|done].
    by apply item_ok_fetching.
  - apply (fetch_climbs (heap w) n res (run_action (APut false) w1));
      [done|by apply wf_run|done..].
Qed.

Lemma for_urls_climbs (net : nat → string → get_result) (urls : list string) :
  (∀ i url, length_consistent (net i url)) →
  ∀ (i : nat) (st : wstate),
    wf (cur st) → Forall item_ok (heap (cur st)) →
    ∃ t,
      for_urls net i urls st = Some (extend st t)
      ∧ climbs (heap (cur st)) (emitted t (cur st)) (heap (replay t (cur st)))
      ∧ Forall item_ok (heap (replay t (cur st))).
Proof.
  intros Hnet. induction urls as [|url urls IH]; intros i st Hwf Hok; simpl.
  { exists []. rewrite extend_nil. split; [done|]. split; [apply le_heap_refl|done]. }
  destruct (download_one_extend st url (net i url)) as (n & _ & ->).
  destruct (replay_url_actions n (net i url) (cur st)) as [k Hw1].
  set (t1 := url_actions (length (heap (cur st))) n (net i url)) in *.
  assert (wf (cur (extend st t1))) as Hwf1 by (by apply wf_replay).
  assert (Forall item_ok (heap (cur (extend st t1)))) as Hok1.
  { unfold extend. cbn [cur]. rewrite Hw1. cbn [heap].
    apply Forall_app. split; [done|]. constructor; [|done]. apply item_ok_final. }
  destruct (IH (S i) (extend st t1) Hwf1 Hok1) as (t & -> & Hcl & Hfin).
  exists (t1 ++ t). split; [by rewrite extend_extend|].
  rewrite emitted_app, replay_app. split; [|done].
  eapply climbs_app; [|done].
  unfold extend. cbn [cur]. rewrite Hw1. cbn [heap].
  by apply url_climbs.
Qed.

(** X16. When every response announces a length that agrees with its
    body, the progress values behave as C5 says: every item shown by a snapshot
    has its progress in [0,100], and 100 once its status is final; and
    from one snapshot to any later one no item's progress decreases. *)
Theorem progress_well_behaved (urls : list string)
    (net : nat → string → get_result) (write_ok : bool)
    (fs : gmap string archive) (task_id : string) :
  (∀ i url, length_consistent (net i url)) →
  ∃ st,
    download_worker urls net write_ok fs task_id = Some st
    ∧ let seen := emitted (trace st) (new_world fs) in
      (∀ v x, v ∈ seen → x ∈ v.1 → item_ok x)
      ∧ ∀ k k' v v',
          (k ≤ k')%nat → seen !! k = Some v → seen !! k' = Some v' →
          le_heap v.1 v'.1.
Proof.
  intros Hnet. unfold download_worker.
  destruct (for_urls_climbs net urls Hnet 1 (WState (new_world fs) []))
    as (t & -> & Hcl & Hfin); [done|by constructor|].
  cbn [cur] in Hcl, Hfin.
  assert (wf (replay t (new_world fs))) as Hwf by (by apply wf_replay).
  assert (climbs [] (emitted (t ++ closing_actions write_ok task_id) (new_world fs))
            (heap (replay t (new_world fs)))) as Hall.
  { rewrite emitted_app. eapply climbs_app; [done|].
    rewrite emitted_closing by done. destruct write_ok; simpl.
    - split_and!; [apply le_heap_refl|done|apply le_heap_refl].
    - apply le_heap_refl. }
  exists (extend (extend (WState (new_world fs) []) t)
            (closing_actions write_ok task_id)).
  split.
  { unfold closing_actions. destruct write_ok.
    - by rewrite !emit_extend, !extend_extend.
    - by rewrite extend_nil. }
  cbn zeta. cbn [extend trace app]. split.
  - intros v x Hv Hx.
    pose proof (climbs_ok _ _ _ _ Hall Hv) as Hok.
    rewrite Forall_forall in Hok. by apply Hok.
  - intros k k' v v' Hle Hv Hv'. by eapply (climbs_mono _ _ _ k k').
Qed.

(** ** Further properties of the code *)

(** *** File names *)

Lemma map_sanitize_safe (s : string) :
  PyStr.all safe_char s = true → PyStr.map sanitize_char s = s.
Proof.
  induction s as [|c s IH]; simpl; [done|].
  intros [Hc Hs]%andb_true_iff. unfold sanitize_char at 1.
  by rewrite Hc, IH.
Qed.

Lemma length_map_sanitize (s : string) :
  String.length (PyStr.map sanitize_char s) = String.length s.
Proof. induction s as [|c s IH]; simpl; [done|]. by rewrite IH. Qed.

(** X1. [sanitize_filename] changes nothing in a name that is already
    acceptable, and only in such a name: its fixed points are exactly the
    non-empty names of at most 200 characters, all of them in
    [[A-Za-z0-9._-]].  Hence sanitising twice is sanitising once. *)
Theorem sanitize_filename_fixed_points (name : string) :
  (sanitize_filename name = name ↔
   name ≠ "" ∧ (String.length name ≤ 200)%nat ∧ PyStr.all safe_char name = true)
  ∧ sanitize_filename (sanitize_filename name) = sanitize_filename name.
Proof.
  assert (∀ n, n ≠ "" → (String.length n ≤ 200)%nat →
               PyStr.all safe_char n = true → sanitize_filename n = n) as Hfix.
  { intros n Hne Hlen Hsafe.
    rewrite sanitize_filename_eq, map_sanitize_safe by done. by apply take_all. }
  pose proof (sanitize_filename_safe name) as (Hs & Hl & Hne).
  split; [split|].
  - intros <-. done.
  - intros (? & ? & ?). by apply Hfix.
  - by apply Hfix.
Qed.

Lemma before_first_absent (c : ascii) (u : string) :
  PyStr.contains c u = false → PyStr.before_first c u = u.
Proof.
  induction u as [|a u IH]; simpl; [done|].
  intros [Ha Hu]%orb_false_iff. by rewrite Ha, IH.
Qed.

Lemma before_first_cut (c : ascii) (u rest : string) :
  PyStr.contains c u = false → PyStr.before_first c (u +:+ String c rest) = u.
Proof.
  induction u as [|a u IH]; ssimpl.
  - by rewrite Ascii.eqb_refl.
  - intros [Ha Hu]%orb_false_iff. by rewrite Ha, IH.
Qed.

(** X2. The query string plays no part in the file name: a URL and the
    same URL followed by [?] and anything resolve to the same name. *)
Theorem extract_filename_ignores_query (u query : string) :
  PyStr.contains "?" u = false →
  extract_filename_from_url (u +:+ String "?" query)
  = extract_filename_from_url u.
Proof.
  intros Hu. unfold extract_filename_from_url.
  by rewrite before_first_cut, before_first_absent.
Qed.

Lemma all_app (p : ascii → bool) (a b : string) :
  PyStr.all p (a +:+ b) = PyStr.all p a && PyStr.all p b.
Proof.
  induction a as [|c a IH]; ssimpl; [done|]. by rewrite IH, andb_assoc.
Qed.

Lemma all_drop (p : ascii → bool) (n : nat) (s : string) :
  PyStr.all p s = true → PyStr.all p (PyStr.drop n s) = true.
Proof.
  revert s. induction n as [|n IH]; intros [|c s]; simpl; try done.
  intros [_ ?]%andb_true_iff. by apply IH.
Qed.

Lemma all_contains (p : ascii → bool) (c : ascii) (s : string) :
  PyStr.all p s = true → p c = false → PyStr.contains c s = false.
Proof.
  intros Hs Hc. induction s as [|a s IH]; simpl in *; [done|].
  apply andb_true_iff in Hs as [Ha Hs]. rewrite IH by done.
  destruct (Ascii.eqb_spec a c) as [->|]; [congruence|done].
Qed.

Lemma pretty_N_char_safe (x : N) : safe_char (pretty_N_char x) = true.
Proof. unfold pretty_N_char. by repeat case_match. Qed.

Lemma pretty_N_go_safe (x : N) (s : string) :
  PyStr.all safe_char s = true → PyStr.all safe_char (pretty_N_go x s) = true.
Proof.
  revert s. induction (N.lt_wf_0 x) as [x _ IH]; intros s Hs.
  destruct (decide (0 < x)%N) as [Hx|Hx].
  - rewrite pretty_N_go_step by done. apply IH.
    + by apply N.div_lt.
    + simpl. by rewrite pretty_N_char_safe, Hs.
  - assert (x = 0%N) as -> by lia. by rewrite pretty_N_go_0.
Qed.

Lemma pretty_nat_safe (k : nat) : PyStr.all safe_char (pretty k) = true.
Proof.
  unfold pretty, pretty_nat, pretty, pretty_N. case_decide; [done|].
  by apply pretty_N_go_safe.
Qed.

Lemma suffixed_safe (filename : string) (k : nat) :
  PyStr.all safe_char filename = true →
  PyStr.all safe_char (suffixed filename k) = true.
Proof.
  intros Hf. unfold suffixed.
  destruct (OsPath.splitext filename) as [base ext] eqn:E.
  apply splitext_app in E. rewrite E, all_app in Hf.
  apply andb_true_iff in Hf as [Hb He].
  rewrite !all_app, Hb, He, pretty_nat_safe. done.
Qed.

Lemma extract_filename_safe (url : string) :
  PyStr.all safe_char (extract_filename_from_url url) = true.
Proof.
  unfold extract_filename_from_url.
  destruct (urlparse_path _); apply sanitize_filename_safe.
Qed.

Lemma chosen_safe (used filenames names : list string) :
  chosen used filenames names →
  Forall (λ f, PyStr.all safe_char f = true) filenames →
  Forall (λ n, PyStr.all safe_char n = true) names.
Proof.
  revert used names. induction filenames as [|f fs IH]; intros used [|n ns];
    simpl; try done.
  intros [[_ Hn] Hch] [Hf Hfs]%Forall_cons. constructor; [|by eapply IH].
  destruct Hn as [->|(_ & k & _ & -> & _)]; [done|]. by apply suffixed_safe.
Qed.

(** X3. Whatever the URLs are, every item name and every archive member
    name the worker produces is made of characters of [[A-Za-z0-9._-]]
    only; in particular no name contains a slash or a backslash, also
    after a numeric suffix has been inserted. *)
Theorem download_worker_names_safe (urls : list string)
    (net : nat → string → get_result) (write_ok : bool)
    (fs : gmap string archive) (task_id : string) :
  ∃ st,
    download_worker urls net write_ok fs task_id = Some st
    ∧ ∀ n,
        (n ∈ name <$> item_list (cur st) ∨ n ∈ (zf (cur st)).*1) →
        PyStr.all safe_char n = true
        ∧ PyStr.contains "/" n = false
        ∧ PyStr.contains "\" n = false.
Proof.
  destruct (download_worker_final urls net write_ok fs task_id)
    as (st & t & names & q & Hrun & _ & Hch & _ & _ & Hcur & _ & Hnames).
  exists st. split; [done|].
  assert (Forall (λ n, PyStr.all safe_char n = true) names) as Hsafe.
  { apply (chosen_safe _ _ _ Hch), Forall_fmap, Forall_forall. intros url _.
    apply extract_filename_safe. }
  intros n Hn.
  assert (PyStr.all safe_char n = true) as Hall.
  { rewrite Forall_forall in Hsafe. apply Hsafe.
    destruct Hn as [Hn|Hn]; [by rewrite <-Hnames|].
    rewrite Hcur in Hn. cbn [zf] in Hn.
    eapply elem_of_sublist; [done|apply final_archive_names]. }
  split_and!; [done|by eapply all_contains..].
Qed.

(** *** How many snapshots a run puts *)

Lemma puts_length (t : list action) (w : world) :
  length (puts t w) = length (List.filter is_put t).
Proof.
  revert w. induction t as [|a t IH]; intros w; simpl; [done|].
  rewrite length_app, IH. by destruct a.
Qed.

Lemma filter_is_put_app (t1 t2 : list action) :
  List.filter is_put (t1 ++ t2) = List.filter is_put t1 ++ List.filter is_put t2.
Proof. apply List.filter_app. Qed.

Lemma chunk_actions_puts (it : nat) (total d : Z) (chunks : list bytes) :
  length (List.filter is_put (chunk_actions it total d chunks))
  = length (List.filter nonempty chunks).
Proof.
  revert d. induction chunks as [|c chunks IH]; intros d; simpl; [done|].
  destruct (nonempty c); simpl; by rewrite IH.
Qed.

Lemma fetch_actions_puts (it : nat) (n : string) (res : get_result) :
  length (List.filter is_put (fetch_actions it n res)) = S (chunks_seen res).
Proof.
  unfold fetch_actions, chunks_seen. destruct res as [msg|r]; [done|].
  destruct (http_error r); [done|].
  destruct (total_of (header_length r)); [|done].
  rewrite filter_is_put_app, length_app, chunk_actions_puts.
  destruct (stream_error r); simpl; lia.
Qed.

Lemma for_urls_puts (net : nat → string → get_result) (urls : list string) :
  ∀ (i : nat) (st : wstate),
    ∃ t,
      for_urls net i urls st = Some (extend st t)
      ∧ length (List.filter is_put t)
        = sum_list ((λ res, 2 + chunks_seen res)%nat <$> answers net i urls).
Proof.
  induction urls as [|url urls IH]; intros i st; simpl.
  { exists []. by rewrite extend_nil. }
  destruct (download_one_extend st url (net i url)) as (n & _ & ->).
  destruct (IH (S i) (extend st (url_actions (length (heap (cur st))) n (net i url))))
    as (t & -> & Ht).
  eexists. split; [by rewrite extend_extend|].
  rewrite filter_is_put_app, length_app, Ht. unfold url_actions.
  rewrite filter_is_put_app, length_app, fetch_actions_puts. by simpl.
Qed.

(** X4. A run puts exactly two snapshots for each URL (one when its item
    is appended, one when its fetch ends, well or badly), one more for
    each non-empty chunk read, and the terminal one when the archive
    could be written; there are as many emitted views. *)
Theorem download_worker_snapshot_count (urls : list string)
    (net : nat → string → get_result) (write_ok : bool)
    (fs : gmap string archive) (task_id : string) :
  ∃ st,
    download_worker urls net write_ok fs task_id = Some st
    ∧ length (puts (trace st) (new_world fs))
      = (sum_list ((λ res, 2 + chunks_seen res)%nat <$> answers net 1 urls)
         + if write_ok then 1 else 0)%nat
    ∧ length (emitted (trace st) (new_world fs))
      = length (puts (trace st) (new_world fs)).
Proof.
  unfold download_worker.
  destruct (for_urls_puts net urls 1 (WState (new_world fs) [])) as (t & -> & Ht).
  exists (extend (extend (WState (new_world fs) []) t)
            (closing_actions write_ok task_id)).
  split.
  { unfold closing_actions. destruct write_ok.
    - by rewrite !emit_extend, !extend_extend.
    - by rewrite extend_nil. }
  cbn [extend trace app]. split.
  - rewrite puts_length, filter_is_put_app, length_app, Ht.
    unfold closing_actions. by destruct write_ok.
  - rewrite <-(length_fmap snd), emitted_done. by rewrite length_fmap.
Qed.

(** *** The archive on disk *)





(** *** The stream ends, and then the archive is there *)

Lemma sys_run_app (l1 l2 : list thread) (s : sys) :
  sys_run (l1 ++ l2) s = sys_run l2 (sys_run l1 s).
Proof. apply foldl_app. Qed.

Lemma sys_init_live (fs : gmap string archive) (T : list action) :
  sys_live T (new_world fs) (sys_init fs T).
Proof. split; [by exists []|]. intros _. constructor. Qed.

Lemma sys_step_live (T : list action) (w0 : world) (who : thread) (s : sys) :
  sys_live T w0 s → sys_live T w0 (sys_step who s).
Proof.
  intros Hl. pose proof Hl as [(performed & HT & Hz & Hf) Hnd].
  destruct who; simpl.
  - destruct (pending s) as [|a t] eqn:Hp; [done|].
    split; [|done]. exists (performed ++ [a]).
    cbn [shared pending]. rewrite replay_snoc. split_and!.
    + by rewrite <-app_assoc.
    + destruct a; simpl; by rewrite ?Hz.
    + destruct a; simpl; by rewrite ?Hz, ?Hf.
  - destruct (listening s) eqn:Hls; [|done].
    unfold event_stream. destruct (queue (shared s)) as [|x q'] eqn:Hq.
    + split; [by exists performed|]. cbn [delivered listening].
      rewrite app_nil_r. done.
    + split; [by exists performed|]. cbn [delivered listening].
      intros Hd%negb_true_iff. apply Forall_app. split; [by apply Hnd|].
      by constructor.
Qed.

Lemma sys_run_live (T : list action) (w0 : world) (sched : list thread) (s : sys) :
  sys_live T w0 s → sys_live T w0 (sys_run sched s).
Proof.
  revert s. induction sched as [|who sched IH]; intros s Hs; [done|].
  apply (IH (sys_step who s)), sys_step_live, Hs.
Qed.

Lemma worker_finishes (n : nat) (s : sys) :
  (length (pending s) ≤ n)%nat → pending (sys_run (replicate n Worker) s) = [].
Proof.
  revert s. induction n as [|n IH]; intros s; simpl.
  - destruct (pending s); simpl; [done|intros; exfalso; lia].
  - intros Hn. apply IH. revert Hn.
    destruct (pending s) as [|a t] eqn:Hp; simpl; rewrite ?Hp; simpl; lia.
Qed.

Lemma observer_stopped (m : nat) (s : sys) :
  listening s = false → sys_run (replicate m Observer) s = s.
Proof.
  intros Hl. induction m as [|m IH]; simpl; [done|]. by rewrite Hl.
Qed.

Lemma observer_drains (d : snapshot) (q' : list snapshot) :
  ∀ (m : nat) (s : sys),
    listening s = true → queue (shared s) = q' ++ [d] →
    Forall (λ x, done x = false) q' → done d = true →
    (S (length q') ≤ m)%nat →
    delivered (sys_run (replicate m Observer) s) = delivered s ++ q' ++ [d]
    ∧ listening (sys_run (replicate m Observer) s) = false.
Proof.
  induction q' as [|x q' IH]; intros m s Hl Hq Hnd Hd Hm;
    (destruct m as [|m]; [simpl in Hm; lia|]); simpl; rewrite Hl;
    unfold event_stream; rewrite Hq; simpl.
  - rewrite Hd. simpl. by rewrite observer_stopped.
  - apply Forall_cons in Hnd as [Hx Hnd]. rewrite Hx. simpl.
    destruct (IH m (Sys (set_queue (q' ++ [d]) (shared s)) (pending s)
                      (delivered s ++ [x])
                      (events s ++ [view (shared s) x]) true))
      as [Hdel Hstop]; try done.
    { simpl in Hm. lia. }
    rewrite Hdel, Hstop. cbn [delivered]. by rewrite <-app_assoc.
Qed.

(** X7. Once the archive has been written, the observer is bound to see
    the end: in every run, after any interleaving, if the worker is given
    at least as many turns as it has effects and the observer then polls
    at least as many times as snapshots were put, the observer has
    received every snapshot, the last of them with [done = true], and its
    loop has stopped. *)
Theorem observer_receives_terminal (urls : list string)
    (net : nat → string → get_result) (fs : gmap string archive)
    (task_id : string) :
  ∃ st,
    download_worker urls net true fs task_id = Some st
    ∧ ∀ sched n m,
        (length (trace st) ≤ n)%nat →
        (length (puts (trace st) (new_world fs)) ≤ m)%nat →
        let s := sys_run (sched ++ replicate n Worker ++ replicate m Observer)
                   (sys_init fs (trace st)) in
        delivered s = puts (trace st) (new_world fs)
        ∧ listening s = false
        ∧ ∃ x, last (delivered s) = Some x ∧ done x = true.
Proof.
  destruct (download_worker_final urls net true fs task_id)
    as (st & t & names & q & Hrun & Htr & _ & Hw & Hg & _).
  exists st. split; [done|]. intros sched n m Hn Hm. cbn zeta.
  assert (puts (trace st) (new_world fs)
          = q ++ [Snapshot (seq 0 (length urls)) true]) as Hall.
  { by rewrite Htr, puts_app, puts_closing, (puts_replay_new t), Hw. }
  pose proof (grows_not_done _ _ _ Hg) as Hq.
  rewrite app_assoc, sys_run_app.
  set (s1 := sys_run (sched ++ replicate n Worker) (sys_init fs (trace st))).
  pose proof (sys_run_inv (trace st) (new_world fs) (sched ++ replicate n Worker) _
                (sys_init_inv fs (trace st))) as Hinv.
  pose proof (sys_run_live (trace st) (new_world fs) (sched ++ replicate n Worker) _
                (sys_init_live fs (trace st))) as [_ Hlive].
  fold s1 in Hinv, Hlive.
  assert (pending s1 = []) as Hp.
  { unfold s1. rewrite sys_run_app. apply worker_finishes.
    pose proof (sys_run_inv (trace st) (new_world fs) sched _
                  (sys_init_inv fs (trace st))) as (perf & HT & _).
    rewrite HT, length_app in Hn. lia. }
  destruct Hinv as (performed & HT & _ & _ & Hdq & _ & Hstop & _).
  rewrite Hp, app_nil_r in HT. subst performed. rewrite Hall in Hdq.
  assert (delivered (sys_run (replicate m Observer) s1) = q ++ [Snapshot (seq 0 (length urls)) true]
          ∧ listening (sys_run (replicate m Observer) s1) = false) as [Hdel Hend].
  { destruct (listening s1) eqn:Hl.
    - specialize (Hlive eq_refl).
      destruct (queue (shared s1)) as [|y qs] eqn:Hqs using rev_ind.
      { rewrite app_nil_r in Hdq. rewrite Hdq in Hlive.
        apply Forall_app in Hlive as [_ Hlive].
        apply Forall_cons in Hlive as [Hlive _]. done. }
      clear IHqs. rewrite app_assoc in Hdq.
      apply app_inj_tail in Hdq as [Hdq ->].
      destruct (observer_drains (Snapshot (seq 0 (length urls)) true) qs m s1)
        as [Hdel Hend]; try done.
      + rewrite <-Hdq in Hq. by apply Forall_app in Hq as [_ ?].
      + rewrite Hall, <-Hdq, !length_app in Hm. simpl in Hm. lia.
      + rewrite Hdel, app_assoc, Hdq. done.
    - rewrite observer_stopped by done. split; [|done].
      destruct (Hstop eq_refl) as (x & Hx & Hd).
      destruct (queue (shared s1)) as [|y qs] eqn:Hqs using rev_ind.
      { by rewrite app_nil_r in Hdq. }
      clear IHqs. rewrite app_assoc in Hdq.
      apply app_inj_tail in Hdq as [Hdq _].
      apply last_Some_elem_of in Hx. rewrite <-Hdq in Hq.
      apply Forall_app in Hq as [Hq _].
      rewrite Forall_forall in Hq. specialize (Hq _ Hx). congruence. }
  rewrite Hall, Hdel, Hend. split_and!; [done..|].
  eexists. by rewrite last_snoc.
Qed.


(** *** The URLs of a submission *)

Lemma lstrip_all (p : ascii → bool) (s : string) :
  PyStr.all p s = true → PyStr.all p (PyStr.lstrip s) = true.
Proof.
  induction s as [|c s IH]; simpl; [done|].
  intros H. destruct (PyStr.is_space c); [|done].
  apply andb_true_iff in H as [_ H]. by apply IH.
Qed.

Lemma rstrip_all (p : ascii → bool) (s : string) :
  PyStr.all p s = true → PyStr.all p (PyStr.rstrip s) = true.
Proof.
  induction s as [|c s IH]; simpl; [done|].
  intros [Hc Hs]%andb_true_iff.
  destruct (PyStr.is_empty (PyStr.rstrip s) && PyStr.is_space c); [done|].
  simpl. by rewrite Hc, IH.
Qed.

Lemma lstrip_length (s : string) :
  (String.length (PyStr.lstrip s) ≤ String.length s)%nat.
Proof.
  induction s as [|c s IH]; simpl; [done|].
  destruct (PyStr.is_space c); simpl; lia.
Qed.

Lemma lstrip_fixed (s : string) :
  PyStr.lstrip s = s → s = "" ∨ ∃ c r, s = String c r ∧ PyStr.is_space c = false.
Proof.
  destruct s as [|c r]; [by left|]. simpl.
  destruct (PyStr.is_space c) eqn:Hc; [|right; by exists c, r].
  intros H%(f_equal String.length). pose proof (lstrip_length r). simpl in H. lia.
Qed.

Lemma lstrip_idem (s : string) : PyStr.lstrip (PyStr.lstrip s) = PyStr.lstrip s.
Proof.
  induction s as [|c s IH]; simpl; [done|].
  destruct (PyStr.is_space c) eqn:Hc; [done|]. simpl. by rewrite Hc.
Qed.

Lemma rstrip_idem (s : string) : PyStr.rstrip (PyStr.rstrip s) = PyStr.rstrip s.
Proof.
  induction s as [|c s IH]; simpl; [done|].
  destruct (PyStr.is_empty (PyStr.rstrip s) && PyStr.is_space c) eqn:E; [done|].
  simpl. by rewrite IH, E.
Qed.

Lemma lstrip_rstrip (s : string) :
  PyStr.lstrip s = s → PyStr.lstrip (PyStr.rstrip s) = PyStr.rstrip s.
Proof.
  intros [->|(c & r & -> & Hc)]%lstrip_fixed; [done|]. simpl.
  rewrite Hc, andb_false_r. simpl. by rewrite Hc.
Qed.

Lemma strip_idem (s : string) : PyStr.strip (PyStr.strip s) = PyStr.strip s.
Proof.
  unfold PyStr.strip.
  rewrite (lstrip_rstrip (PyStr.lstrip s)) by apply lstrip_idem.
  apply rstrip_idem.
Qed.

Lemma splitlines_from_nobreak (n : nat) :
  ∀ (s line : string),
    (String.length s ≤ n)%nat →
    PyStr.all (λ c, negb (PyStr.line_break c)) line = true →
    Forall (λ l, PyStr.all (λ c, negb (PyStr.line_break c)) l = true)
      (PyStr.splitlines_from line s).
Proof.
  induction n as [|n IH]; intros [|c r] line Hn Hline; simpl in *; try lia.
  - destruct (PyStr.is_empty line); by repeat constructor.
  - destruct (PyStr.is_empty line); by repeat constructor.
  - destruct (PyStr.line_break c) eqn:Hc.
    + constructor; [done|]. apply IH; [|done].
      destruct (Ascii.eqb c "013"); [|lia].
      destruct r as [|c' r']; simpl in *; [lia|].
      destruct (Ascii.eqb c' "010"); simpl; lia.
    + apply IH; [lia|]. rewrite all_app, Hline. simpl. by rewrite Hc.
Qed.

(** X9. Every URL that [start] hands to a worker is clean: it is not
    empty, it has no white space at either end, and it contains none of
    the line boundaries of [str.splitlines], so neither a line feed nor a
    carriage return. *)
Theorem parse_urls_clean (raw : string) : Forall clean_url (parse_urls raw).
Proof.
  apply Forall_forall. intros u Hu. unfold parse_urls in Hu.
  apply list_elem_of_In, filter_In in Hu as [Hu Hne].
  apply list_elem_of_In, list_elem_of_fmap in Hu as (l & -> & Hl).
  pose proof (splitlines_from_nobreak (String.length raw) raw "" (le_n _) eq_refl)
    as Hlines.
  rewrite Forall_forall in Hlines. specialize (Hlines _ Hl).
  split_and!.
  - intros E. by rewrite E in Hne.
  - apply strip_idem.
  - by apply rstrip_all, lstrip_all.
Qed.

Lemma splitlines_from_app (u s line : string) :
  PyStr.all (λ c, negb (PyStr.line_break c)) u = true →
  PyStr.splitlines_from line (u +:+ s) = PyStr.splitlines_from (line +:+ u) s.
Proof.
  revert line. induction u as [|c u IH]; intros line; ssimpl.
  - by rewrite str_app_nil_r.
  - intros [Hc Hu]%andb_true_iff. apply negb_true_iff in Hc. rewrite Hc.
    rewrite IH by done. by rewrite str_app_assoc.
Qed.

Lemma splitlines_join_lines (urls : list string) :
  Forall clean_url urls → PyStr.splitlines (join_lines urls) = urls.
Proof.
  unfold PyStr.splitlines. induction 1 as [|u urls (Hne & _ & Hnb) Hrest IH];
    [done|].
  destruct urls as [|v rest].
  - cbn [join_lines]. rewrite <-(str_app_nil_r u) at 1.
    rewrite splitlines_from_app by done. simpl. by destruct u.
  - change (join_lines (u :: v :: rest))
      with (u +:+ String "010" (join_lines (v :: rest))).
    remember (join_lines (v :: rest)) as J eqn:HJ.
    rewrite splitlines_from_app by done. ssimpl. by rewrite IH.
Qed.

(** X10. Clean URLs written one per line come back as they are: the
    text made of such URLs separated by line feeds is parsed into exactly
    these URLs, in order. *)
Theorem parse_urls_join_lines (urls : list string) :
  Forall clean_url urls → parse_urls (join_lines urls) = urls.
Proof.
  intros Hc. unfold parse_urls. rewrite splitlines_join_lines by done.
  induction Hc as [|u urls (Hne & Hs & _) _ IH]; [done|].
  cbn [fmap list_fmap List.filter]. rewrite Hs.
  destruct u; [done|]. simpl. f_equal. apply IH.
Qed.

(** *** One item at a time *)

Lemma final_status_final (n : string) (res : get_result) :
  item_final (Item n (final_status res) 100).
Proof.
  split; [|done]. unfold final_status. simpl.
  destruct (failure_of res); by ssimpl.
Qed.

Lemma shown_settled_last (H : list item) (x : item) :
  Forall item_final H → status x = "下载中" ∨ item_final x →
  shown_settled (H ++ [x], false).
Proof.
  intros HH Hx i y Hy. cbn [fst snd] in *.
  apply lookup_app_Some in Hy as [Hy|[Hge Hy]].
  - left. by eapply Forall_lookup_1.
  - destruct (i - length H)%nat as [|?] eqn:E; [|done]. injection Hy as <-.
    destruct Hx as [Hx|Hx]; [right|by left].
    split_and!; [|done..]. rewrite length_app. simpl. lia.
Qed.

Lemma chunk_settled (H : list item) (n : string) (total : Z) (chunks : list bytes) :
  ∀ (d p : Z) (w : world),
    heap w = H ++ [Item n "下载中" p] → wf w → Forall item_final H →
    ∃ p',
      heap (replay (chunk_actions (length H) total d chunks) w)
      = H ++ [Item n "下载中" p']
      ∧ wf (replay (chunk_actions (length H) total d chunks) w)
      ∧ Forall shown_settled (emitted (chunk_actions (length H) total d chunks) w).
Proof.
  induction chunks as [|c chunks IH]; intros d p w Hh Hwf HH.
  { exists p. simpl. by rewrite Hh. }
  cbn [chunk_actions]. destruct c as [|b c]; cbn [nonempty].
  { by apply (IH d p). }
  cbn zeta. cbn [app].
  set (d' := d + Z.of_nat (length (b :: c))).
  set (w1 := run_action (ASetProgress (length H) (percent d' total)) w).
  assert (heap w1 = H ++ [Item n "下载中" (percent d' total)]) as Hh1.
  { unfold w1. simpl. by rewrite Hh, alter_last. }
  assert (wf w1) as Hwf1 by (by apply wf_run).
  assert (wf (run_action (APut false) w1)) as Hwf2 by (by apply wf_run).
  destruct (IH d' (percent d' total) (run_action (APut false) w1) Hh1 Hwf2 HH)
    as (p' & Hheap & Hwf' & Hall).
  exists p'. rewrite !replay_cons. fold w1. split_and!; [done..|].
  cbn [emitted app]. fold w1. rewrite view_wf by done. constructor; [|done].
  rewrite Hh1. apply shown_settled_last; [done|by left].
Qed.

Lemma fail_settled (H : list item) (n msg : string) (p : Z) (w : world) :
  heap w = H ++ [Item n "下载中" p] → wf w → Forall item_final H →
  Forall shown_settled (emitted (fail_actions (length H) msg) w).
Proof.
  intros Hh Hwf HH. unfold fail_actions. cbn [emitted app].
  rewrite view_wf by (by do 2 apply wf_run). cbn [run_action heap].
  rewrite Hh, !alter_last. cbn [set_status set_progress name status progress].
  constructor; [|done]. apply shown_settled_last; [done|right].
  split; [|done]. simpl. by ssimpl.
Qed.

Lemma fetch_settled (H : list item) (n : string) (res : get_result) (w : world) :
  heap w = H ++ [Item n "下载中" 0] → wf w → Forall item_final H →
  Forall shown_settled (emitted (fetch_actions (length H) n res) w).
Proof.
  intros Hh Hwf HH. unfold fetch_actions.
  destruct res as [msg|r]; [by apply (fail_settled H n msg 0)|].
  destruct (http_error r) as [msg|]; [by apply (fail_settled H n msg 0)|].
  destruct (total_of (header_length r)) as [total|msg];
    [|by apply (fail_settled H n msg 0)].
  destruct (chunk_settled H n total (chunks_read r) 0 0 w)
    as (p' & Hheap & Hwf' & Hall); try done.
  rewrite emitted_app. apply Forall_app. split; [done|].
  destruct (stream_error r) as [msg|].
  - by apply (fail_settled H n msg p').
  - cbn [emitted app].
    rewrite view_wf by (by do 3 apply wf_run). cbn [run_action heap].
    rewrite Hheap, !alter_last.
    cbn [set_status set_progress name status progress].
    constructor; [|done]. apply shown_settled_last; [done|right]. by split.
Qed.

Lemma url_settled (n : string) (res : get_result) (w : world) :
  wf w → Forall item_final (heap w) →
  Forall shown_settled (emitted (url_actions (length (heap w)) n res) w).
Proof.
  intros Hwf HH. unfold url_actions. cbn [app emitted].
  set (w1 := run_action (ANew (Item n "下载中" 0)) w).
  assert (wf w1) as Hwf1 by (by apply wf_run).
  rewrite view_wf by done. constructor.
  - apply shown_settled_last; [done|by left].
  - apply (fetch_settled (heap w) n res (run_action (APut false) w1));
      [done|by apply wf_run|done].
Qed.

Lemma for_urls_settled (net : nat → string → get_result) (urls : list string) :
  ∀ (i : nat) (st : wstate),
    wf (cur st) → Forall item_final (heap (cur st)) →
    ∃ t,
      for_urls net i urls st = Some (extend st t)
      ∧ Forall shown_settled (emitted t (cur st))
      ∧ Forall item_final (heap (replay t (cur st))).
Proof.
  induction urls as [|url urls IH]; intros i st Hwf Hok; simpl.
  { exists []. by rewrite extend_nil. }
  destruct (download_one_extend st url (net i url)) as (n & _ & ->).
  destruct (replay_url_actions n (net i url) (cur st)) as [k Hw1].
  set (t1 := url_actions (length (heap (cur st))) n (net i url)) in *.
  assert (wf (cur (extend st t1))) as Hwf1 by (by apply wf_replay).
  assert (Forall item_final (heap (cur (extend st t1)))) as Hok1.
  { unfold extend. cbn [cur]. rewrite Hw1. cbn [heap].
    apply Forall_app. split; [done|]. constructor; [|done].
    apply final_status_final. }
  destruct (IH (S i) (extend st t1) Hwf1 Hok1) as (t & -> & Hall & Hfin).
  exists (t1 ++ t). split; [by rewrite extend_extend|].
  rewrite emitted_app, replay_app. split; [|done].
  apply Forall_app. split; [|done]. by apply url_settled.
Qed.

(** X15. The worker fetches one URL at a time, and every snapshot shows
    it, whatever the network does: each item a snapshot shows at the
    instant it is put is finished (a status other than [下载中] and
    progress 100), except possibly the last item of a snapshot that is
    not terminal, which is then still [下载中]; the terminal snapshot
    shows finished items only.  No snapshot shows a final status with a
    progress other than 100. *)
Theorem download_worker_one_at_a_time (urls : list string)
    (net : nat → string → get_result) (write_ok : bool)
    (fs : gmap string archive) (task_id : string) :
  ∃ st,
    download_worker urls net write_ok fs task_id = Some st
    ∧ ∀ v, v ∈ emitted (trace st) (new_world fs) →
           shown_settled v
           ∧ (v.2 = true → Forall item_final v.1)
           ∧ ∀ x, x ∈ v.1 → status x ≠ "下载中" → progress x = 100.
Proof.
  unfold download_worker.
  destruct (for_urls_settled net urls 1 (WState (new_world fs) []))
    as (t & -> & Hall & Hfin); [done|by constructor|].
  cbn [cur] in Hall, Hfin.
  assert (wf (replay t (new_world fs))) as Hwf by (by apply wf_replay).
  exists (extend (extend (WState (new_world fs) []) t)
            (closing_actions write_ok task_id)).
  split.
  { unfold closing_actions. destruct write_ok.
    - by rewrite !emit_extend, !extend_extend.
    - by rewrite extend_nil. }
  cbn [extend trace app]. intros v Hv.
  assert (shown_settled v ∧ (v.2 = true → Forall item_final v.1)) as [Hs Hd].
  { rewrite emitted_app, emitted_closing in Hv by done.
    apply elem_of_app in Hv as [Hv|Hv].
    - rewrite Forall_forall in Hall. split; [by apply Hall|].
      intros Hdone. apply Forall_lookup_2. intros i x Hx.
      destruct (Hall v Hv i x Hx) as [?|(_ & Hf & _)]; [done|congruence].
    - destruct write_ok; [|by apply elem_of_nil in Hv].
      apply list_elem_of_singleton in Hv as ->. cbn [fst snd].
      split; [|done]. intros i x Hx. left. by eapply Forall_lookup_1. }
  split_and!; [done..|].
  intros x [i Hx]%list_elem_of_lookup Hst.
  destruct (Hs i x Hx) as [[_ ?]|(_ & _ & ?)]; done.
Qed.

(** *** The registry of queues *)


Lemma start_dom (raw : string) (srv : server) :
  dom (progress_queues srv) ⊆ dom (progress_queues (start raw srv).2)
  ∧ uuid_calls (start raw srv).2
    = (uuid_calls srv + if bool_decide (parse_urls raw = []) then 0 else 1)%nat
  ∧ length (threads (start raw srv).2)
    = (length (threads srv) + if bool_decide (parse_urls raw = []) then 0 else 1)%nat.
Proof.
  unfold start. destruct (parse_urls raw) as [|u us]; simpl.
  - split_and!; [done|lia..].
  - split_and!; [set_solver|lia|]. rewrite length_app. simpl. lia.
Qed.

(** X12. Through any sequence of submissions the registry only grows:
    every identifier registered before is still registered afterwards,
    and the identifiers drawn and the workers started both grow by the
    number of submissions that held at least one URL. *)
Theorem registry_only_grows (raws : list string) (srv : server) :
  let srv' := foldl (λ s raw, (start raw s).2) srv raws in
  let accepted :=
    length (List.filter (λ raw, negb (bool_decide (parse_urls raw = []))) raws) in
  dom (progress_queues srv) ⊆ dom (progress_queues srv')
  ∧ uuid_calls srv' = (uuid_calls srv + accepted)%nat
  ∧ length (threads srv') = (length (threads srv) + accepted)%nat.
Proof.
  cbn zeta. revert srv. induction raws as [|raw raws IH]; intros srv; simpl.
  { split_and!; [done|lia..]. }
  destruct (IH (start raw srv).2) as (Hd & Hu & Ht).
  destruct (start_dom raw srv) as (Hd1 & Hu1 & Ht1).
  rewrite Hu, Ht, Hu1, Ht1. split; [by etrans|].
  destruct (bool_decide (parse_urls raw = [])); simpl; lia.
Qed.

(** *** Sessions *)

(** X13. Submitted credentials are compared after their outer white
    space is removed, the configured ones as they are.  So when the
    configured user name or password begins or ends with white space, no
    request logs in: [login] always shows the form again and leaves the
    session as it was. *)
Theorem login_impossible_when_padded (req : login_request)
    (session : gmap string bool) :
  PyStr.strip APP_USERNAME ≠ APP_USERNAME
  ∨ PyStr.strip APP_PASSWORD ≠ APP_PASSWORD →
  (login req session).2 = session
  ∧ ∃ error next_path, (login req session).1 = LoginPage error next_path.
Proof.
  intros Hpad.
  assert (¬ (PyStr.strip (default "" (form req !! "username")) = APP_USERNAME
             ∧ PyStr.strip (default "" (form req !! "password")) = APP_PASSWORD))
    as Hno.
  { intros [Hu Hp]. destruct Hpad as [H|H]; apply H.
    - rewrite <-Hu. apply strip_idem.
    - rewrite <-Hp. apply strip_idem. }
  unfold login. destruct (method req); [by eauto|].
  destruct (bool_decide _) eqn:Hu; [|by eauto].
  destruct (bool_decide (_ = APP_PASSWORD)) eqn:Hp; [|by eauto].
  apply bool_decide_eq_true in Hu, Hp. by destruct Hno.
Qed.

(** X14. The gate follows the session.  A view behind [login_required]
    is not run for a session that is not logged in: its state is left
    alone, and the answer is 401 on the paths beginning with [/start],
    [/progress] or [/download_final] and a redirection to the login page
    otherwise.  After a [login] whose credentials match, the same view is
    run; after [logout] it is refused again, whatever the session
    held. *)
Theorem gate_follows_session {R S : Type} (view : S → R * S)
    (req : login_request) (session : gmap string bool) (path : string) (st : S) :
  method req = POST →
  PyStr.strip (default "" (form req !! "username")) = APP_USERNAME →
  PyStr.strip (default "" (form req !! "password")) = APP_PASSWORD →
  (is_logged_in session = false →
   login_required view session path st
   = (if api_path path then Unauthorized else ToLogin path, st))
  ∧ login_required view (login req session).2 path st
    = (Passed (view st).1, (view st).2)
  ∧ login_required view (logout (login req session).2).2 path st
    = (if api_path path then Unauthorized else ToLogin path, st)
  ∧ (logout session).2 = ∅.
Proof.
  intros Hm Hu Hp. unfold login_required, login, logout, is_logged_in.
  rewrite Hm, Hu, Hp, !bool_decide_eq_true_2 by done. simpl.
  rewrite lookup_insert_eq, lookup_empty. simpl. split_and!; try done.
  - intros ->. simpl. by destruct (api_path path).
  - by destruct (view st).
  - by destruct (api_path path).
Qed.

End Pipeline.

(** ** Worked examples, with the reference model of [urlparse] *)

Example resolver_examples :
  extract_filename_from_url UrlLib.urlparse_path "http://host/a.png" = "a.png"
  ∧ extract_filename_from_url UrlLib.urlparse_path "http://host/b" = "b.jpg"
  ∧ extract_filename_from_url UrlLib.urlparse_path "http://host/img/?v=1.2" = "file.jpg"
  ∧ extract_filename_from_url UrlLib.urlparse_path "http://host/a b%20c.png?x=1" = "a_b_20c.png"
  ∧ extract_filename_from_url UrlLib.urlparse_path "http://[::1/a.png" = "file.jpg".
Proof. by vm_compute. Qed.

(** The first scenario of the specification: [a.png] is fetched, [b]
    cannot be reached. *)
Example scenario_partial_failure :
  (λ st : wstate, (item_list (cur st), zf (cur st),
          files (cur st) !! "tmp_zip/T.zip",
          last (emitted (trace st) (new_world ∅))))
    <$> download_worker UrlLib.urlparse_path "tmp_zip"
          ["http://host/a.png"; "http://host/b"] net_mixed true ∅ "T"
  = Some ([Item "a.png" "完成" 100; Item "b.jpg" "失败: connection refused" 100],
          [("a.png", replicate 100 star)],
          Some [("a.png", replicate 100 star)],
          Some ([Item "a.png" "完成" 100;
                 Item "b.jpg" "失败: connection refused" 100], true)).
Proof. by vm_compute. Qed.

(** The second scenario: colliding names. *)
Example scenario_collision :
  (λ st : wstate, name <$> item_list (cur st))
    <$> download_worker UrlLib.urlparse_path "tmp_zip"
          ["http://a/img.jpg"; "http://b/img.jpg"; "http://c/img.jpg?x"; "http://d/img_1.jpg"]
          net_ok true ∅ "T"
  = Some ["img.jpg"; "img_1.jpg"; "img_2.jpg"; "img_1_1.jpg"].
Proof. by vm_compute. Qed.

(** An observer that starts polling in the middle of the run and keeps
    polling receives every snapshot, in order, the terminal one last, and
    then stops. *)
Example observer_receives_all :
  ∃ st,
    download_worker UrlLib.urlparse_path "tmp_zip"
      ["http://host/a.png"; "http://host/b"] net_mixed true ∅ "T" = Some st
    ∧ let s := sys_run (replicate 4 Worker ++ [Observer; Observer; Observer]
                        ++ replicate 20 Worker ++ replicate 20 Observer)
                 (sys_init ∅ (trace st)) in
      delivered s = puts (trace st) (new_world ∅)
      ∧ done <$> delivered s = [false; false; false; false; false; true]
      ∧ listening s = false.
Proof. eexists. split; [by vm_compute|]. by vm_compute. Qed.

(** C5 (code). With a compressed response, whose announced length is
    smaller than the body read, the progress shown for the item is 0,
    then 200, then 100: it leaves [0,100] and then decreases; an observer
    that polls as the snapshots are put is shown these values.  The
    response does not satisfy [length_consistent]. *)
Theorem c5_progress_exceeds_100 :
  (λ st : wstate,
     ((λ v : list item * bool, progress <$> v.1)
        <$> emitted (trace st) (new_world ∅),
      (λ v : list item * bool, progress <$> v.1)
        <$> events (sys_run [Worker; Worker; Observer; Worker; Worker; Observer;
                             Worker; Worker; Worker; Worker; Observer]
                      (sys_init ∅ (trace st)))))
    <$> download_worker UrlLib.urlparse_path "tmp_zip"
          ["http://host/a.png"] net_gzip true ∅ "T"
  = Some ([[0]; [200]; [100]; [100]], [[0]; [200]; [100]])
  ∧ ¬ length_consistent (net_gzip 1 "http://host/a.png").
Proof. split; [by vm_compute|]. simpl. lia. Qed.

(** The premise of [progress_well_behaved] at a concrete network. *)
Lemma progress_well_behaved_example :
  ∃ st,
    download_worker UrlLib.urlparse_path "tmp_zip"
      ["http://host/a.png"; "http://host/b"] net_ok true ∅ "T" = Some st
    ∧ let seen := emitted (trace st) (new_world ∅) in
      (∀ v x, v ∈ seen → x ∈ v.1 → item_ok x)
      ∧ ∀ k k' v v',
          (k ≤ k')%nat → seen !! k = Some v → seen !! k' = Some v' →
          le_heap v.1 v'.1.
Proof.
  apply (progress_well_behaved UrlLib.urlparse_path "tmp_zip").
  intros i url. simpl. lia.
Defined.

(** The snapshots on the queue hold the item dictionaries themselves.
    The first snapshot is put when its item has status [下载中] and
    progress 0; an observer that takes it from the queue after the worker
    has gone on reads other values: the final ones when the worker has
    finished, and, when the worker is between the two assignments of the
    [except] clause, a status and a progress that were never put
    together. *)
Example shared_items_observed :
  ∃ st,
    download_worker UrlLib.urlparse_path "tmp_zip"
      ["http://host/a.png"] net_broken true ∅ "T" = Some st
    ∧ head (emitted (trace st) (new_world ∅))
      = Some ([Item "a.png" "下载中" 0], false)
    ∧ events (sys_run (replicate (length (trace st)) Worker ++ [Observer])
                (sys_init ∅ (trace st)))
      = [([Item "a.png" "失败: connection reset" 100], false)]
    ∧ events (sys_run (replicate 5 Worker ++ [Observer]) (sys_init ∅ (trace st)))
      = [([Item "a.png" "失败: connection reset" 50], false)]
    ∧ ([Item "a.png" "失败: connection reset" 50], false)
      ∉ emitted (trace st) (new_world ∅).
Proof.
  eexists. split; [by vm_compute|]. split_and!; try by vm_compute.
  vm_compute. intros H. repeat (apply elem_of_cons in H as [H|H]; [done|]).
  by apply elem_of_nil in H.
Qed.

(** C6 as stated fails: with one URL whose connection breaks, an observer
    that polls once the worker has finished is handed the first snapshot
    with the item already failed at 100, not fetching at 0 as it was
    put. *)
Lemma c6_counterexample :
  ∃ st,
    download_worker UrlLib.urlparse_path "tmp_zip"
      ["http://host/a.png"] net_broken true ∅ "T" = Some st
    ∧ ¬ delivered_as_emitted (trace st) ∅.
Proof.
  eexists. split; [by vm_compute|]. intros H.
  specialize (H (replicate 9 Worker ++ [Observer]) 0%nat
                ([Item "a.png" "失败: connection reset" 100], false)).
  vm_compute in H. by specialize (H eq_refl).
Qed.

(** C7 at a concrete fetch: three bytes announced, read as two and one. *)
Lemma c7_chunk_progress_witness :
  ∃ t,
    trace (fetch 0 "a.png" (GetReturns three_bytes) first_item_state)
    = trace first_item_state ++ t
    ∧ ∀ k b,
        bytes_so_far 0 (List.filter nonempty (chunks_read three_bytes)) !! k = Some b →
        ∃ v x,
          emitted t (cur first_item_state) !! k = Some v
          ∧ v.2 = false
          ∧ v.1 !! 0%nat = Some x
          ∧ progress x = if 3 =? 0 then 100 else b * 100 / 3.
Proof.
  apply (c7_chunk_progress first_item_state 0 0 "a.png" three_bytes 3);
    [reflexivity | simpl; lia | reflexivity | reflexivity | lia].
Defined.

Example chunk_progress_values :
  (λ v : list item * bool, progress <$> v.1)
    <$> emitted (fetch_actions 0 "a.png" (GetReturns three_bytes))
          (cur first_item_state)
  = [[66]; [100]; [100]].
Proof. by vm_compute. Qed.

(** C9 at a concrete submission: blank lines only. *)
Lemma c9_empty_submission_witness :
  let raw := "  " +:+ String "010" (String "009" (String "013" (String "010" ""))) in
  let srv := Server ∅ [] 0 in
  Forall (λ line, PyStr.strip line = "") (PyStr.splitlines raw)
  ∧ start demo_uuid4 raw srv = (Reply400 "no urls provided", srv)
  ∧ (∀ task_id, (start demo_uuid4 raw srv).1 ≠ Reply200 task_id)
  ∧ uuid_calls (start demo_uuid4 raw srv).2 = uuid_calls srv
  ∧ progress_queues (start demo_uuid4 raw srv).2 = progress_queues srv
  ∧ threads (start demo_uuid4 raw srv).2 = threads srv.
Proof.
  apply (c9_empty_submission demo_uuid4); reflexivity.
Defined.

(** X2 at a concrete URL. *)
Lemma extract_filename_ignores_query_witness :
  PyStr.contains "?" "http://host/img/a.png" = false
  ∧ extract_filename_from_url UrlLib.urlparse_path
      ("http://host/img/a.png" +:+ String "?" "w=200&name=b.gif")
    = extract_filename_from_url UrlLib.urlparse_path "http://host/img/a.png".
Proof.
  split; [reflexivity|].
  apply (extract_filename_ignores_query UrlLib.urlparse_path). reflexivity.
Defined.


(** X10 at two concrete URLs. *)
Lemma parse_urls_join_lines_witness :
  Forall clean_url ["http://host/a.png"; "http://host/b c.jpg"]
  ∧ parse_urls (join_lines ["http://host/a.png"; "http://host/b c.jpg"])
    = ["http://host/a.png"; "http://host/b c.jpg"].
Proof.
  assert (Forall clean_url ["http://host/a.png"; "http://host/b c.jpg"]) as H.
  { repeat constructor; first [discriminate | reflexivity]. }
  split; [exact H|]. apply (parse_urls_join_lines _ H).
Defined.


(** X13 at a password configured with a trailing space: typing it
    exactly does not log in. *)
Lemma login_impossible_when_padded_witness :
  (PyStr.strip "admin" ≠ "admin" ∨ PyStr.strip "secret " ≠ "secret ")
  ∧ (login "admin" "secret "
       (LoginRequest POST ∅ {[ "username" := "admin"; "password" := "secret " ]})
       ∅).2 = ∅
  ∧ ∃ error next_path,
      (login "admin" "secret "
         (LoginRequest POST ∅ {[ "username" := "admin"; "password" := "secret " ]})
         ∅).1 = LoginPage error next_path.
Proof.
  split; [right; vm_compute; discriminate|].
  apply login_impossible_when_padded. right. vm_compute. discriminate.
Defined.

(** X14 at a concrete account, for the view [start] on the path
    [/start]. *)
Lemma gate_follows_session_witness :
  (is_logged_in ∅ = false →
   login_required (start demo_uuid4 "http://host/a.png") ∅ "/start" (Server ∅ [] 0)
   = (if api_path "/start" then Unauthorized else ToLogin "/start", Server ∅ [] 0))
  ∧ login_required (start demo_uuid4 "http://host/a.png")
      (login "admin" "password"
         (LoginRequest POST ∅ {[ "username" := " admin"; "password" := "password" ]})
         ∅).2 "/start" (Server ∅ [] 0)
    = (Passed (start demo_uuid4 "http://host/a.png" (Server ∅ [] 0)).1,
       (start demo_uuid4 "http://host/a.png" (Server ∅ [] 0)).2)
  ∧ login_required (start demo_uuid4 "http://host/a.png")
      (logout
         (login "admin" "password"
            (LoginRequest POST ∅ {[ "username" := " admin"; "password" := "password" ]})
            ∅).2).2 "/start" (Server ∅ [] 0)
    = (if api_path "/start" then Unauthorized else ToLogin "/start", Server ∅ [] 0)
  ∧ (logout ∅).2 = ∅.
Proof.
  apply (gate_follows_session "admin" "password"); reflexivity.
Defined.
